(** * picsum-photos image service: worker queue, coalescing handler,
    fingerprints and request-log severity

  A shallow embedding of
  - [internal/imageapi/image.go]  (fingerprint, file name, coalescing handler),
  - the [queue] package           (bounded worker queue),
  - the [handler] package         (request logger, panic recovery),
  followed by the properties of the service specification that concern them. *)

From Stdlib Require Import ZArith Ascii Strings.Byte DecimalString DecimalZ DecimalPos.
From stdpp Require Import gmap strings list.

Local Open Scope Z_scope.

(* ===================================================================== *)
(** * Strings and [fmt.Sprintf] verbs *)
(* ===================================================================== *)

Module Fmt.

(** [%d] applied to a Go [int]: the decimal numeral, with a leading minus
    sign for negative values. *)
Definition sprintf_d (z : Z) : string :=
  NilZero.string_of_int (Z.to_int z).

Definition chars (s : string) : list ascii := String.list_ascii_of_string s.

Definition is_digit (c : ascii) : bool :=
  let n := nat_of_ascii c in (48 <=? n)%nat && (n <=? 57)%nat.

Definition is_dash (c : ascii) : bool := Ascii.eqb c "-"%char.

(** [stops r]: [r] is empty or begins with a character that is not a digit. *)
Definition stops (r : list ascii) : Prop :=
  match r with
  | [] => True
  | c :: _ => is_digit c = false
  end.

(** Does some position of [l] hold a dash immediately followed by a digit? *)
Fixpoint has_dash_digit (l : list ascii) : bool :=
  match l with
  | c :: r =>
      match r with
      | d :: _ => (is_dash c && is_digit d) || has_dash_digit r
      | [] => false
      end
  | [] => false
  end.

End Fmt.

(* ===================================================================== *)
(** * Values shared by the packages *)
(* ===================================================================== *)

Module Go.

Definition bytes := list Byte.byte.

(** The non-nil values of [ctx.Err()]. *)
Inductive ctx_error := Canceled | DeadlineExceeded.

(** Error values.  [ErrQueueFull] is the sentinel [queue.ErrQueueFull] that
    [imageHandler] tests with [errors.Is]; [Errorf] is a fresh error made by
    [fmt.Errorf]; [Wrapped] is an error whose [Unwrap] yields [inner]. *)

Inductive error :=
| ErrContext (e : ctx_error)
| ErrQueueFull
| Errorf (msg : string)
| Wrapped (msg : string) (inner : error).

Fixpoint errors_Is_QueueFull (err : error) : bool :=
  match err with
  | ErrQueueFull => true
  | Wrapped _ inner => errors_Is_QueueFull inner
  | _ => false
  end.

#[global] Instance byte_eq_dec : EqDecision Byte.byte := Byte.byte_eq_dec.
#[global] Instance ctx_error_eq_dec : EqDecision ctx_error.
Proof. solve_decision. Defined.
#[global] Instance error_eq_dec : EqDecision error.
Proof. solve_decision. Defined.

End Go.

(* ===================================================================== *)
(** * Package [imageapi]: fingerprint and file name *)
(* ===================================================================== *)

Module ImageApi.
Import Fmt Go.

(** Modelled from the spec: [params.Params] is declared in package
    [params], outside this source tree.  These are the fields [imageapi]
    reads, with the types the data model gives them. *)
Record Params := mkParams {
  Width      : Z;
  Height     : Z;
  Extension  : string;
  Blur       : bool;
  BlurAmount : Z;
  Grayscale  : bool
}.

(** [buildCacheKey]: the coalescing / cache key. *)
Definition buildCacheKey (imageID : string) (p : Params) : string :=
  let key := imageID +:+ "-" +:+ sprintf_d (Width p) +:+ "x"
                     +:+ sprintf_d (Height p) +:+ Extension p in
  let key := if Blur p then key +:+ ("-blur_" +:+ sprintf_d (BlurAmount p))
             else key in
  let key := if Grayscale p then key +:+ "-grayscale" else key in
  key.

(** [buildFilename]: the name advertised in [Content-Disposition]. *)
Definition buildFilename (imageID : string) (p : Params) : string :=
  let filename := imageID +:+ "-" +:+ sprintf_d (Width p) +:+ "x"
                          +:+ sprintf_d (Height p) in
  let filename := if Blur p
                  then filename +:+ ("-blur_" +:+ sprintf_d (BlurAmount p))
                  else filename in
  let filename := if Grayscale p then filename +:+ "-grayscale"
                  else filename in
  let filename := filename +:+ Extension p in
  filename.

Definition getContentType (extension : string) : string :=
  if decide (extension = ".webp") then "image/webp" else "image/jpeg".

(** The fingerprint as the specification words it:
    [{id}-{width}x{height}{extension}[-blur_{n}][-grayscale]]. *)
Definition spec_fingerprint (imageID : string) (p : Params) : string :=
  imageID +:+ "-" +:+ sprintf_d (Width p) +:+ "x" +:+ sprintf_d (Height p)
          +:+ Extension p
          +:+ (if Blur p then "-blur_" +:+ sprintf_d (BlurAmount p) else "")
          +:+ (if Grayscale p then "-grayscale" else "").

(** The parameter space of the data model. *)
Definition in_space (imageID : string) (p : Params) : Prop :=
  imageID ≠ "" ∧
  0 < Width p ≤ 5000 ∧
  0 < Height p ≤ 5000 ∧
  (Extension p = ".jpg" ∨ Extension p = ".webp") ∧
  (Blur p = true → 1 ≤ BlurAmount p ≤ 10).

(** Two requests carry the same parameter vector.  The blur amount is part
    of the vector only when blur is requested. *)
Definition same_vector (id1 : string) (p1 : Params)
                       (id2 : string) (p2 : Params) : Prop :=
  id1 = id2 ∧ Width p1 = Width p2 ∧ Height p1 = Height p2 ∧
  Extension p1 = Extension p2 ∧ Blur p1 = Blur p2 ∧
  (Blur p1 = true → BlurAmount p1 = BlurAmount p2) ∧
  Grayscale p1 = Grayscale p2.

(** The characters that follow the id in a fingerprint. *)
Definition blur_part (p : Params) : list ascii :=
  if Blur p then chars "-blur_" ++ chars (sprintf_d (BlurAmount p)) else [].
Definition gray_part (p : Params) : list ascii :=
  if Grayscale p then chars "-grayscale" else [].
Definition key_body (p : Params) : list ascii :=
  chars (sprintf_d (Width p)) ++
  "x"%char :: chars (sprintf_d (Height p)) ++
  chars (Extension p) ++ blur_part p ++ gray_part p.
Definition key_tail (p : Params) : list ascii := "-"%char :: key_body p.

(** The file name as [buildFilename] lays it out: the extension comes
    last. *)
Definition spec_filename (imageID : string) (p : Params) : string :=
  imageID +:+ "-" +:+ sprintf_d (Width p) +:+ "x" +:+ sprintf_d (Height p)
          +:+ (if Blur p then "-blur_" +:+ sprintf_d (BlurAmount p) else "")
          +:+ (if Grayscale p then "-grayscale" else "")
          +:+ Extension p.

(** ** Collaborator types *)

(** Modelled from the spec: the constructors of [handler.Error] live in
    package [handler], outside this source tree; the status code of each is
    the one the interface section of the specification gives it. *)
Inductive HandlerError :=
| InternalServerError
| ServiceUnavailable
| BadRequest (message : string).

Definition Code (e : HandlerError) : Z :=
  match e with
  | InternalServerError => 500
  | ServiceUnavailable => 503
  | BadRequest _ => 400
  end.

(** The part of [http.ResponseWriter] the handlers touch: the header map,
    the status code once it is written, and the body sent so far. *)
Record ResponseWriter := mkWriter {
  Header : gmap string string;
  Status : option Z;
  Body   : bytes
}.

(** [textproto.CanonicalMIMEHeaderKey], which [http.Header.Set] applies to
    the name it is given.  A name made of token bytes only gets an
    upper-case letter first and after each dash and lower-case letters
    everywhere else; a name with any other byte is left as it is. *)
Definition validHeaderFieldByte (c : ascii) : bool :=
  let n := N_of_ascii c in
  ((n =? 33) || ((35 <=? n) && (n <=? 39)) || (n =? 42) || (n =? 43) ||
   (n =? 45) || (n =? 46) || ((48 <=? n) && (n <=? 57)) ||
   ((65 <=? n) && (n <=? 90)) || ((94 <=? n) && (n <=? 122)) ||
   (n =? 124) || (n =? 126))%N.

Definition toLower : N := 32.

Fixpoint canonicalMIMEHeaderKey (upper : bool) (s : string) : string :=
  match s with
  | EmptyString => EmptyString
  | String c rest =>
      let n := N_of_ascii c in
      let n := (if upper && (97 <=? n) && (n <=? 122) then n - toLower
                else if negb upper && (65 <=? n) && (n <=? 90)
                     then n + toLower
                     else n)%N in
      String (ascii_of_N n) (canonicalMIMEHeaderKey (n =? 45)%N rest)
  end.

Definition CanonicalMIMEHeaderKey (s : string) : string :=
  if forallb validHeaderFieldByte (chars s)
  then canonicalMIMEHeaderKey true s
  else s.

Arguments CanonicalMIMEHeaderKey : simpl never.

(** [w.Header().Set(k, v)]: the value is stored under the canonical form of
    the name and replaces what was there. *)
Definition Header_Set (k v : string) (w : ResponseWriter) : ResponseWriter :=
  mkWriter (<[CanonicalMIMEHeaderKey k := v]> (Header w)) (Status w) (Body w).

(** [w.WriteHeader(code)]; only the first call counts. *)
Definition WriteHeader (code : Z) (w : ResponseWriter) : ResponseWriter :=
  match Status w with
  | Some _ => w
  | None => mkWriter (Header w) (Some code) (Body w)
  end.

(** [w.Write(b)]; the first write sends status 200 if none was sent. *)
Definition Writer_Write (b : bytes) (w : ResponseWriter) : ResponseWriter :=
  let w := WriteHeader 200 w in
  mkWriter (Header w) (Status w) (Body w ++ b).

Definition dquote : string := String "034"%char "".

(** [sendImage] writes the processed image with its headers and returns
    [nil]. *)
Definition sendImage (w : ResponseWriter) (imageID : string) (p : Params)
    (processedImage : bytes) : ResponseWriter * option HandlerError :=
  let w := Header_Set "Content-Disposition"
             ("inline; filename=" +:+ dquote +:+ buildFilename imageID p
                                  +:+ dquote) w in
  let w := Header_Set "Content-Type" (getContentType (Extension p)) w in
  let w := Header_Set "Content-Length"
             (sprintf_d (Z.of_nat (length processedImage))) w in
  let w := Header_Set "Cache-Control"
             "public, max-age=2592000, stale-while-revalidate=60, stale-if-error=43200, immutable" w in
  let w := Header_Set "Picsum-ID" imageID w in
  let w := Header_Set "Timing-Allow-Origin" "*" w in
  let w := Writer_Write processedImage w in
  (w, None).

(** The header value [inline; filename="{name}"]. *)
Definition content_disposition (name : string) : string :=
  "inline; filename=" +:+ dquote +:+ name +:+ dquote.

(** ** The coalescing handler *)

(** Identity of a completion signal ([chan struct{}]). *)
Definition chan := nat.

Inductive counter :=
| cacheHits | cacheMisses | requestsCoalesced | requestsProcessed
| queueFullErrors.

Inductive OutputFormat := JPEG | WebP.

Definition getOutputFormat (extension : string) : OutputFormat :=
  if decide (extension = ".webp") then WebP else JPEG.

(** Modelled from the spec: package [image] is outside this source tree.
    A task carries what the image-processor section lists: the source id,
    the target size, the caption, the output format and the optional
    transforms; [NewTask], [Task_Blur] and [Task_Grayscale] set them. *)
Record Task := mkTask {
  task_imageID   : string;
  task_width     : Z;
  task_height    : Z;
  task_caption   : string;
  task_format    : OutputFormat;
  task_blur      : option Z;
  task_grayscale : bool
}.

Definition NewTask (imageID : string) (width height : Z) (caption : string)
    (format : OutputFormat) : Task :=
  mkTask imageID width height caption format None false.
Definition Task_Blur (amount : Z) (t : Task) : Task :=
  mkTask (task_imageID t) (task_width t) (task_height t) (task_caption t)
         (task_format t) (Some amount) (task_grayscale t).
Definition Task_Grayscale (t : Task) : Task :=
  mkTask (task_imageID t) (task_width t) (task_height t) (task_caption t)
         (task_format t) (task_blur t) true.

(** What the packages [params] and [mux] report for a request. *)
Record Request := mkRequest {
  ValidateHMAC : bool * option error;
  GetParams    : Params + string;
  Vars_id      : string
}.

(** Which arm of the waiter's [select] fired. *)
Inductive wake := Signalled | Cancelled.

(** A handler goroutine: a tree of the operations it performs on the shared
    objects, each with the continuation that receives the operation's
    answer.  [Panic] is a goroutine unwinding; [imageHandler] defers
    nothing, so nothing of it runs after a panic. *)
Inductive prog (R : Type) : Type :=
| Ret (r : R)
| Panic
| CacheGet (key : string) (k : option bytes → prog R)
| CacheAdd (key : string) (img : bytes) (k : prog R)
| CounterAdd (c : counter) (k : prog R)
| MakeChan (k : chan → prog R)
| LoadOrStore (key : string) (ch : chan) (k : chan → bool → prog R)
| Delete (key : string) (k : prog R)
| Close (ch : chan) (k : prog R)
| Select (ch : chan) (k : wake → prog R)
| ProcessImage (t : Task) (k : bytes → option error → prog R)
| LogError (message : string) (err : error) (k : prog R).

Arguments Ret {R} r.
Arguments Panic {R}.
Arguments CacheGet {R} key k.
Arguments CacheAdd {R} key img k.
Arguments CounterAdd {R} c k.
Arguments MakeChan {R} k.
Arguments LoadOrStore {R} key ch k.
Arguments Delete {R} key k.
Arguments Close {R} ch k.
Arguments Select {R} ch k.
Arguments ProcessImage {R} t k.
Arguments LogError {R} message err k.

Definition result := (ResponseWriter * option HandlerError)%type.

(** Lines 87-95 of [imageHandler]: the image task of a request. *)
Definition buildTask (imageID : string) (p : Params) : Task :=
  let task := NewTask imageID (Width p) (Height p)
                      ("Picsum ID: " +:+ imageID)
                      (getOutputFormat (Extension p)) in
  let task := if Blur p then Task_Blur (BlurAmount p) task else task in
  let task := if Grayscale p then Task_Grayscale task else task in
  task.

(** Lines 84-119 of [imageHandler]: the producer path.  [loaded] is the flag
    [LoadOrStore] returned and [done] the channel this request created. *)
Definition produce (w : ResponseWriter) (imageID : string) (p : Params)
    (cacheKey : string) (done : chan) (loaded : bool) : prog result :=
  CounterAdd requestsProcessed (
  ProcessImage (buildTask imageID p) (λ processedImage err,
  let after_cleanup :=
    match err with
    | Some e =>
        if errors_Is_QueueFull e then
          CounterAdd queueFullErrors (
          LogError "error processing image: queue is full" e (
          Ret (w, Some ServiceUnavailable)))
        else
          LogError "error processing image" e (
          Ret (w, Some InternalServerError))
    | None =>
        CacheAdd cacheKey processedImage (
        Ret (sendImage w imageID p processedImage))
    end in
  if negb loaded
  then Delete cacheKey (Close done after_cleanup)
  else after_cleanup)).

Definition imageHandler (w : ResponseWriter) (r : Request) : prog result :=
  match ValidateHMAC r with
  | (_, Some _) => Ret (w, Some InternalServerError)
  | (false, None) => Ret (w, Some (BadRequest "Invalid parameters"))
  | (true, None) =>
      match GetParams r with
      | inr message => Ret (w, Some (BadRequest message))
      | inl p =>
          let imageID := Vars_id r in
          let cacheKey := buildCacheKey imageID p in
          CacheGet cacheKey (λ cached,
          match cached with
          | Some cachedImage =>
              CounterAdd cacheHits (
              Ret (sendImage w imageID p cachedImage))
          | None =>
              CounterAdd cacheMisses (
              MakeChan (λ done,
              LoadOrStore cacheKey done (λ existing loaded,
              if loaded then
                CounterAdd requestsCoalesced (
                Select existing (λ arm,
                match arm with
                | Signalled =>
                    CacheGet cacheKey (λ cached,
                    match cached with
                    | Some cachedImage =>
                        Ret (sendImage w imageID p cachedImage)
                    | None => produce w imageID p cacheKey done loaded
                    end)
                | Cancelled => Ret (w, Some InternalServerError)
                end))
              else produce w imageID p cacheKey done loaded)))
          end)
      end
  end.

(** [Recovery], given where the wrapped handler ended: after a panic the
    deferred function answers 500; it touches neither the cache nor the
    in-flight map.  Without a panic it does nothing. *)
Definition Recovery (w : ResponseWriter) (next : prog result)
    : option ResponseWriter :=
  match next with
  | Panic => Some (WriteHeader 500 w)
  | Ret (w', _) => Some w'
  | _ => None
  end.

(** ** Observable operations *)

(** What the image processor did for one call. *)
Inductive proc_answer :=
| ProcReturned (img : bytes) (err : option error)
| ProcPanicked.

(** One operation of a handler goroutine together with its answer. *)
Inductive event :=
| EvCacheGet (key : string) (cached : option bytes)
| EvCacheAdd (key : string) (img : bytes)
| EvCounterAdd (c : counter)
| EvMakeChan (ch : chan)
| EvLoadOrStore (key : string) (ch : chan) (actual : chan) (loaded : bool)
| EvDelete (key : string)
| EvClose (ch : chan)
| EvSelect (ch : chan) (arm : wake)
| EvProcessImage (t : Task) (a : proc_answer)
| EvLogError (message : string) (err : error).

#[global] Instance counter_eq_dec : EqDecision counter.
Proof. solve_decision. Defined.
#[global] Instance OutputFormat_eq_dec : EqDecision OutputFormat.
Proof. solve_decision. Defined.
#[global] Instance Task_eq_dec : EqDecision Task.
Proof. solve_decision. Defined.

(** [after p ev]: the goroutine [p] performs its next operation and observes
    [ev]; [None] when [ev] is not an observation of that operation. *)
Definition after {R} (p : prog R) (ev : event) : option (prog R) :=
  match p, ev with
  | CacheGet key k, EvCacheGet key' cached =>
      if decide (key = key') then Some (k cached) else None
  | CacheAdd key img k, EvCacheAdd key' img' =>
      if decide (key = key' ∧ img = img') then Some k else None
  | CounterAdd c k, EvCounterAdd c' =>
      if decide (c = c') then Some k else None
  | MakeChan k, EvMakeChan ch => Some (k ch)
  | LoadOrStore key ch k, EvLoadOrStore key' ch' actual loaded =>
      if decide (key = key' ∧ ch = ch') then Some (k actual loaded) else None
  | Delete key k, EvDelete key' =>
      if decide (key = key') then Some k else None
  | Close ch k, EvClose ch' =>
      if decide (ch = ch') then Some k else None
  | Select ch k, EvSelect ch' arm =>
      if decide (ch = ch') then Some (k arm) else None
  | ProcessImage t k, EvProcessImage t' a =>
      if decide (t = t') then
        match a with
        | ProcReturned img err => Some (k img err)
        | ProcPanicked => Some Panic
        end
      else None
  | LogError message err k, EvLogError message' err' =>
      if decide (message = message' ∧ err = err') then Some k else None
  | _, _ => None
  end.

Fixpoint after_trace {R} (p : prog R) (tr : list event) : option (prog R) :=
  match tr with
  | [] => Some p
  | ev :: tr => match after p ev with
                | Some p' => after_trace p' tr
                | None => None
                end
  end.

Definition finished {R} (p : prog R) : bool :=
  match p with Ret _ | Panic => true | _ => false end.

Definition is_Delete (ev : event) : bool :=
  match ev with EvDelete _ => true | _ => false end.
Definition is_Close (ev : event) : bool :=
  match ev with EvClose _ => true | _ => false end.
Definition is_ProcessImage (ev : event) : bool :=
  match ev with EvProcessImage _ _ => true | _ => false end.


(** ** The runs of the handler, listed *)

(** The answers one request can meet on its way through [imageHandler]. *)
Record answers := mkAnswers {
  ans_cached  : option bytes;     (* the first [Get] *)
  ans_done    : chan;             (* the channel [make] returns *)
  ans_actual  : chan;             (* what [LoadOrStore] returns *)
  ans_loaded  : bool;
  ans_arm     : wake;             (* which arm of the [select] fires *)
  ans_recheck : option bytes;     (* the [Get] after waking *)
  ans_proc    : proc_answer       (* what the image processor does *)
}.

Definition cleanup_trace (key : string) (done : chan) (loaded : bool)
    : list event :=
  if negb loaded then [EvDelete key; EvClose done] else [].

Definition produce_trace (w : ResponseWriter) (imageID : string) (p : Params)
    (key : string) (done : chan) (loaded : bool) (a : proc_answer)
    : list event * prog result :=
  let start := [EvCounterAdd requestsProcessed;
                EvProcessImage (buildTask imageID p) a] in
  match a with
  | ProcPanicked => (start, Panic)
  | ProcReturned img (Some e) =>
      if errors_Is_QueueFull e then
        (start ++ cleanup_trace key done loaded ++
           [EvCounterAdd queueFullErrors;
            EvLogError "error processing image: queue is full" e],
         Ret (w, Some ServiceUnavailable))
      else
        (start ++ cleanup_trace key done loaded ++
           [EvLogError "error processing image" e],
         Ret (w, Some InternalServerError))
  | ProcReturned img None =>
      (start ++ cleanup_trace key done loaded ++ [EvCacheAdd key img],
       Ret (sendImage w imageID p img))
  end.

Definition handler_trace (w : ResponseWriter) (imageID : string) (p : Params)
    (a : answers) : list event * prog result :=
  let key := buildCacheKey imageID p in
  match ans_cached a with
  | Some img =>
      ([EvCacheGet key (Some img); EvCounterAdd cacheHits],
       Ret (sendImage w imageID p img))
  | None =>
      let claim := [EvCacheGet key None; EvCounterAdd cacheMisses;
                    EvMakeChan (ans_done a);
                    EvLoadOrStore key (ans_done a) (ans_actual a)
                                  (ans_loaded a)] in
      if ans_loaded a then
        let wait := claim ++ [EvCounterAdd requestsCoalesced;
                              EvSelect (ans_actual a) (ans_arm a)] in
        match ans_arm a with
        | Cancelled => (wait, Ret (w, Some InternalServerError))
        | Signalled =>
            match ans_recheck a with
            | Some img =>
                (wait ++ [EvCacheGet key (Some img)],
                 Ret (sendImage w imageID p img))
            | None =>
                let '(t, fin) := produce_trace w imageID p key (ans_done a)
                                               true (ans_proc a) in
                (wait ++ EvCacheGet key None :: t, fin)
            end
        end
      else
        let '(t, fin) := produce_trace w imageID p key (ans_done a) false
                                       (ans_proc a) in
        (claim ++ t, fin)
  end.

(** A request turned away before the cache is consulted. *)
Definition rejected (r : Request) : Prop :=
  ValidateHMAC r ≠ (true, None) ∨ ∃ message, GetParams r = inr message.


(** ** The shared objects and the goroutines that use them *)

(** [a.imageCache], [a.inflight] and the completion signals.  A signal is a
    channel nobody sends on, so its whole state is whether it was closed. *)
Record shared := mkShared {
  imageCache : gmap string bytes;
  inflight   : gmap string chan;
  closed     : gset chan;
  next_chan  : chan
}.

Definition empty_shared : shared := mkShared ∅ ∅ ∅ 0%nat.

(** [apply_event ctxErr s ev]: the operation observed as [ev], performed on
    the shared objects by a request whose context reports [ctxErr]; [None]
    when the objects cannot give that answer in state [s].  Each handler
    closes only the channel it made, once, so [close] needs no guard here. *)
Definition apply_event (ctxErr : option ctx_error) (s : shared) (ev : event)
    : option shared :=
  match ev with
  | EvCacheGet key cached =>
      if decide (imageCache s !! key = cached) then Some s else None
  | EvCacheAdd key img =>
      Some (mkShared (<[key := img]> (imageCache s)) (inflight s) (closed s)
                     (next_chan s))
  | EvMakeChan ch =>
      if decide (ch = next_chan s)
      then Some (mkShared (imageCache s) (inflight s) (closed s) (S ch))
      else None
  | EvLoadOrStore key ch actual loaded =>
      match inflight s !! key with
      | Some c => if decide (actual = c ∧ loaded = true) then Some s else None
      | None =>
          if decide (actual = ch ∧ loaded = false)
          then Some (mkShared (imageCache s) (<[key := ch]> (inflight s))
                              (closed s) (next_chan s))
          else None
      end
  | EvDelete key =>
      Some (mkShared (imageCache s) (delete key (inflight s)) (closed s)
                     (next_chan s))
  | EvClose ch =>
      Some (mkShared (imageCache s) (inflight s) ({[ch]} ∪ closed s)
                     (next_chan s))
  | EvSelect ch arm =>
      match arm with
      | Signalled => if decide (ch ∈ closed s) then Some s else None
      | Cancelled => match ctxErr with Some _ => Some s | None => None end
      end
  | EvCounterAdd _ | EvProcessImage _ _ | EvLogError _ _ => Some s
  end.

(** One request being served. *)
Record goroutine := mkGoroutine {
  g_ctx  : option ctx_error;       (* r.Context().Err() *)
  g_code : prog result;            (* what is left to run *)
  g_hist : list event              (* what it did so far *)
}.

Record system := mkSystem {
  sys_shared : shared;
  sys_pool   : list goroutine
}.

Definition empty_system : system := mkSystem empty_shared [].

(** What can happen next: a request arrives, a goroutine performs its next
    operation, a request context is cancelled, or the expirable LRU drops an
    entry (TTL expiry or capacity eviction). *)
Inductive action :=
| Spawn (w : ResponseWriter) (r : Request)
| Sched (i : nat) (ev : event)
| CancelCtx (i : nat) (e : ctx_error)
| Evict (key : string).

Definition sys_step (a : action) (s : system) : option system :=
  match a with
  | Spawn w r =>
      Some (mkSystem (sys_shared s)
                     (sys_pool s ++ [mkGoroutine None (imageHandler w r) []]))
  | Sched i ev =>
      g ← sys_pool s !! i;
      code ← after (g_code g) ev;
      sh ← apply_event (g_ctx g) (sys_shared s) ev;
      Some (mkSystem sh
              (<[i := mkGoroutine (g_ctx g) code (g_hist g ++ [ev])]>
                 (sys_pool s)))
  | CancelCtx i e =>
      g ← sys_pool s !! i;
      match g_ctx g with
      | Some _ => None
      | None =>
          Some (mkSystem (sys_shared s)
                  (<[i := mkGoroutine (Some e) (g_code g) (g_hist g)]>
                     (sys_pool s)))
      end
  | Evict key =>
      let sh := sys_shared s in
      Some (mkSystem (mkShared (delete key (imageCache sh)) (inflight sh)
                               (closed sh) (next_chan sh))
                     (sys_pool s))
  end.

Fixpoint sys_run (acts : list action) (s : system) : option system :=
  match acts with
  | [] => Some s
  | a :: acts => s' ← sys_step a s; sys_run acts s'
  end.

Definition reachable (s : system) : Prop :=
  ∃ acts, sys_run acts empty_system = Some s.

(** ** A request used in the examples *)

Definition p0 : Params := mkParams 100 100 ".jpg" false 0 false.
Definition r0 : Request := mkRequest (true, None) (inl p0) "123".
Definition w0 : ResponseWriter := mkWriter ∅ None [].
Definition key0 : string := "123-100x100.jpg".

(** The request is the first for its fingerprint and the image processor
    panics under it. *)
Definition panic_run : list action :=
  [Spawn w0 r0;
   Sched 0 (EvCacheGet key0 None);
   Sched 0 (EvCounterAdd cacheMisses);
   Sched 0 (EvMakeChan 0%nat);
   Sched 0 (EvLoadOrStore key0 0%nat 0%nat false);
   Sched 0 (EvCounterAdd requestsProcessed);
   Sched 0 (EvProcessImage (buildTask "123" p0) ProcPanicked)].

(** A second request for the same fingerprint arrives afterwards. *)
Definition late_run : list action :=
  [Spawn w0 r0;
   Sched 1 (EvCacheGet key0 None);
   Sched 1 (EvCounterAdd cacheMisses);
   Sched 1 (EvMakeChan 1%nat);
   Sched 1 (EvLoadOrStore key0 1%nat 0%nat true);
   Sched 1 (EvCounterAdd requestsCoalesced)].

(** A request with blur, answered from the result cache. *)
Definition pb : Params := mkParams 200 200 ".webp" true 3 false.
Definition rb : Request := mkRequest (true, None) (inl pb) "7".
Definition hit_trace : list event :=
  [EvCacheGet "7-200x200.webp-blur_3" (Some []); EvCounterAdd cacheHits].


End ImageApi.

(* ===================================================================== *)
(** * Package [queue]: the bounded worker queue *)
(* ===================================================================== *)

Module Queue.
Import Go.

(** Identity of a [context.Context] and of a result channel. *)
Definition context := nat.
Definition rchan := nat.

(** Go's [int] on the 64-bit targets the service is built for. *)
Definition wrap_int (z : Z) : Z := (z + 2 ^ 63) mod 2 ^ 64 - 2 ^ 63.

Definition shutdown_error : error := Errorf "queue has been shutdown".

(** [make(chan T, size)] as the runtime's [makechan] checks it on those
    targets: it panics (makechan: size out of range) when the size is
    negative or when the buffer of [size] elements of [elem_size] bytes does
    not fit below [maxAlloc - hchanSize].  A buffer that passes the check
    still has to be allocated; running out of memory there ends the
    process, which [None] stands for as well but no definition here
    predicts. *)
Definition maxAlloc : Z := 2 ^ 48.
Definition hchanSize : Z := 96.
Definition makechan (elem_size size : Z) : option nat :=
  if (size <? 0) || (maxAlloc - hchanSize <? elem_size * size)
  then None
  else Some (Z.to_nat size).

(** The size of a [job]: two interface values and a channel. *)
Definition job_size : Z := 16 + 8 + 16.

Section Model.
Context {Data Result : Type}.

Record jobResult := mkJobResult {
  res_result : option Result;
  res_err    : option error
}.

Record job := mkJob {
  job_data    : Data;
  job_result  : rchan;
  job_context : context
}.

(** The [Queue] struct.  The field [queue] of the source is a channel; here
    the struct keeps its capacity and the channel's content lives in
    [state]. *)
Record Queue := mkQueue {
  workers   : Z;
  queue_cap : nat;
  handler   : context → Data → option Result * option error;
  ctx       : context
}.

(** [New]; it returns no queue when [make(chan job, workers*4)] panics. *)
Definition New (ctx : context) (workers : Z)
    (handler : context → Data → option Result * option error)
    : option Queue :=
  match makechan job_size (wrap_int (workers * 4)) with
  | Some size => Some (mkQueue workers size handler ctx)
  | None => None
  end.

(** The objects the goroutines share: the intake channel, the result
    channels made so far, and the contexts that have been cancelled. *)
Record state := mkState {
  queue   : list job;                       (* buffer, oldest first *)
  closed  : bool;                           (* [close(q.queue)] has run *)
  results : gmap rchan (list jobResult);    (* buffers of capacity 1 *)
  ctxErr  : gmap context ctx_error          (* [Err()] once cancelled *)
}.

Definition set_queue (l : list job) (s : state) : state :=
  mkState l (closed s) (results s) (ctxErr s).
Definition set_closed (s : state) : state :=
  mkState (queue s) true (results s) (ctxErr s).
Definition set_result_buffer (c : rchan) (buf : list jobResult) (s : state)
    : state :=
  mkState (queue s) (closed s) (<[c := buf]> (results s)) (ctxErr s).
Definition set_cancelled (c : context) (e : ctx_error) (s : state) : state :=
  mkState (queue s) (closed s) (results s) (<[c := e]> (ctxErr s)).

(** A send on a result channel, [make(chan jobResult, 1)]: it goes through
    when the buffer has room and blocks otherwise. *)
Definition result_send (s : state) (c : rchan) (r : jobResult)
    : option state :=
  match results s !! c with
  | Some buf =>
      if decide (length buf < 1)%nat
      then Some (set_result_buffer c (buf ++ [r]) s)
      else None
  | None => None
  end.

(** ** [worker] *)

Inductive worker_pc :=
| WStart                               (* before [runtime.LockOSThread] *)
| WSelect                              (* at the [select] *)
| WGot (j : job)                       (* holds a job, context not tested *)
| WSend (j : job) (r : jobResult)      (* about to send on [job.result] *)
| WExit.                               (* returned *)

Record worker := mkWorker {
  w_pc     : worker_pc;
  w_locked : bool;                     (* bound to its OS thread *)
  w_calls  : list (context * Data)     (* handler invocations so far *)
}.

Definition at_pc (pc : worker_pc) (w : worker) : worker :=
  mkWorker pc (w_locked w) (w_calls w).

(** All the steps worker [w] can take in state [s]; the empty list means it
    is blocked (or has returned). *)
Definition worker_step (q : Queue) (s : state) (w : worker)
    : list (state * worker) :=
  match w_pc w with
  | WStart => [(s, mkWorker WSelect true (w_calls w))]
  | WSelect =>
      (* case job, open := <-q.queue *)
      match queue s with
      | j :: rest => [(set_queue rest s, at_pc (WGot j) w)]
      | [] => if closed s then [(s, at_pc WExit w)] else []
      end ++
      (* case <-q.ctx.Done() *)
      match ctxErr s !! ctx q with
      | Some _ => [(s, at_pc WExit w)]
      | None => []
      end
  | WGot j =>
      match ctxErr s !! job_context j with
      | Some e =>
          [(s, at_pc (WSend j (mkJobResult None (Some (ErrContext e)))) w)]
      | None =>
          let '(result, err) := handler q (job_context j) (job_data j) in
          [(s, mkWorker (WSend j (mkJobResult result err)) (w_locked w)
                        (w_calls w ++ [(job_context j, job_data j)]))]
      end
  | WSend j r =>
      match result_send s (job_result j) r with
      | Some s' => [(s', at_pc WSelect w)]
      | None => []
      end
  | WExit => []
  end.

(** ** [Process] *)

Inductive process_pc :=
| PStart (ctx : context) (data : Data)          (* just called *)
| PSend (j : job)                               (* at the first [select] *)
| PWait (ctx : context) (resultChan : rchan)    (* at the second [select] *)
| PReturn (res : option Result) (err : option error)
| PPanic.                                       (* send on a closed channel *)

(** All the steps a call can take in state [s].  The arms of a [select] are
    tested against the state in which the call is scheduled.  Go commits a
    call that is already parked in a [select] to the first arm that becomes
    ready, so for such a call the list can hold more steps than the code
    takes, never fewer: what holds of every step listed holds of the code,
    and an empty list is a call that blocks. *)
Definition process_step (q : Queue) (s : state) (p : process_pc)
    : list (state * process_pc) :=
  match p with
  | PStart callerCtx data =>
      match ctxErr s !! ctx q with
      | Some _ => [(s, PReturn None (Some shutdown_error))]
      | None =>
          let resultChan := fresh (dom (results s)) in
          [(set_result_buffer resultChan [] s,
            PSend (mkJob data resultChan callerCtx))]
      end
  | PSend j =>
      (* case q.queue <- job{...} *)
      (if closed s then [(s, PPanic)]
       else if decide (length (queue s) < queue_cap q)%nat
            then [(set_queue (queue s ++ [j]) s,
                   PWait (job_context j) (job_result j))]
            else []) ++
      (* case <-q.ctx.Done() *)
      match ctxErr s !! ctx q with
      | Some _ => [(s, PReturn None (Some shutdown_error))]
      | None => []
      end ++
      (* case <-ctx.Done() *)
      match ctxErr s !! job_context j with
      | Some e => [(s, PReturn None (Some (ErrContext e)))]
      | None => []
      end
  | PWait callerCtx resultChan =>
      (* case result := <-resultChan *)
      match results s !! resultChan with
      | Some (r :: rest) =>
          [(set_result_buffer resultChan rest s,
            match res_err r with
            | Some e => PReturn None (Some e)
            | None => PReturn (res_result r) None
            end)]
      | _ => []
      end ++
      (* case <-ctx.Done() *)
      match ctxErr s !! callerCtx with
      | Some e => [(s, PReturn None (Some (ErrContext e)))]
      | None => []
      end
  | PReturn _ _ | PPanic => []
  end.

(** ** [Run] *)

Inductive run_pc :=
| RSpawn (i : Z)       (* in the loop that starts the workers *)
| RWait                (* at [<-q.ctx.Done()] *)
| RClose               (* about to [close(q.queue)] *)
| RDone
| RPanic.              (* close of a closed channel *)

(** One step of [Run]: the new state, the new position and the worker
    goroutine it started, if any. *)
Definition run_step (q : Queue) (s : state) (r : run_pc)
    : option (state * run_pc * list worker) :=
  match r with
  | RSpawn i =>
      if i <? workers q
      then Some (s, RSpawn (wrap_int (i + 1)), [mkWorker WStart false []])
      else Some (s, RWait, [])
  | RWait =>
      match ctxErr s !! ctx q with
      | Some _ => Some (s, RClose, [])
      | None => None
      end
  | RClose =>
      if closed s then Some (s, RPanic, []) else Some (set_closed s, RDone, [])
  | RDone | RPanic => None
  end.

(** ** The goroutines together *)

Record system := mkSystem {
  sys_state   : state;
  sys_run     : option run_pc;         (* [None]: [Run] not called yet *)
  sys_workers : list worker;
  sys_procs   : list process_pc
}.

Definition init : system := mkSystem (mkState [] false ∅ ∅) None [] [].

Inductive action :=
| ActRun                               (* [Run] is called, or steps *)
| ActWorker (i n : nat)                (* worker [i] takes its [n]-th step *)
| ActProcess (i n : nat)               (* call [i] takes its [n]-th step *)
| ActCall (ctx : context) (data : Data)(* someone calls [q.Process] *)
| ActCancel (ctx : context) (e : ctx_error).

Definition sys_step (q : Queue) (a : action) (s : system) : option system :=
  match a with
  | ActRun =>
      match sys_run s with
      | None => Some (mkSystem (sys_state s) (Some (RSpawn 0))
                               (sys_workers s) (sys_procs s))
      | Some r =>
          '(st, r', started) ← run_step q (sys_state s) r;
          Some (mkSystem st (Some r') (sys_workers s ++ started)
                         (sys_procs s))
      end
  | ActWorker i n =>
      w ← sys_workers s !! i;
      '(st, w') ← worker_step q (sys_state s) w !! n;
      Some (mkSystem st (sys_run s) (<[i := w']> (sys_workers s))
                     (sys_procs s))
  | ActProcess i n =>
      p ← sys_procs s !! i;
      '(st, p') ← process_step q (sys_state s) p !! n;
      Some (mkSystem st (sys_run s) (sys_workers s)
                     (<[i := p']> (sys_procs s)))
  | ActCall callerCtx data =>
      Some (mkSystem (sys_state s) (sys_run s) (sys_workers s)
                     (sys_procs s ++ [PStart callerCtx data]))
  | ActCancel c e =>
      match ctxErr (sys_state s) !! c with
      | Some _ => None
      | None => Some (mkSystem (set_cancelled c e (sys_state s)) (sys_run s)
                               (sys_workers s) (sys_procs s))
      end
  end.

Fixpoint sys_exec (q : Queue) (acts : list action) (s : system)
    : option system :=
  match acts with
  | [] => Some s
  | a :: acts => s' ← sys_step q a s; sys_exec q acts s'
  end.

Definition reachable (q : Queue) (s : system) : Prop :=
  ∃ acts, sys_exec q acts init = Some s.

(** ** Who holds a claim on a result channel *)

Definition job_on (c : rchan) (j : job) : nat :=
  if decide (job_result j = c) then 1 else 0.

Definition worker_holds (c : rchan) (w : worker) : nat :=
  match w_pc w with
  | WGot j | WSend j _ => job_on c j
  | _ => 0
  end.

Definition process_pending (c : rchan) (p : process_pc) : nat :=
  match p with
  | PSend j => job_on c j
  | _ => 0
  end.

(** Jobs for channel [c] not yet answered, plus answers not yet taken. *)
Definition claims (c : rchan) (s : system) : nat :=
  sum_list_with (job_on c) (queue (sys_state s)) +
  sum_list_with (worker_holds c) (sys_workers s) +
  sum_list_with (process_pending c) (sys_procs s) +
  length (default [] (results (sys_state s) !! c)).

Definition single_use (s : system) : Prop :=
  ∀ c, (claims c s ≤ 1)%nat ∧
       (results (sys_state s) !! c = None → claims c s = 0%nat).

(** The drain property as the specification states it: a worker that
    returns leaves no job in the intake queue. *)
Definition exits_only_when_drained (q : Queue) : Prop :=
  ∀ s s' w w', (s', w') ∈ worker_step q s w → w_pc w' = WExit →
               queue s = [].

(** A worker past its first statement is bound to its OS thread. *)
Definition pinned (w : worker) : Prop :=
  match w_pc w with
  | WStart => w_calls w = []
  | _ => w_locked w = true
  end.

End Model.

Arguments jobResult : clear implicits.
Arguments job : clear implicits.
Arguments Queue : clear implicits.
Arguments state : clear implicits.
Arguments worker_pc : clear implicits.
Arguments worker : clear implicits.
Arguments process_pc : clear implicits.
Arguments system : clear implicits.
Arguments action : clear implicits.

(** ** A queue used in the examples: one worker, the handler echoes. *)

Definition echo (_ : context) (d : nat) : option nat * option error :=
  (Some d, None).
Definition q1 : Queue nat nat := mkQueue 1 4 echo 0%nat.

(** One call is enqueued, the only worker starts, shutdown fires, and the
    worker takes the shutdown arm of its [select]. *)
Definition exit_run : list (action nat) :=
  [ActCall 1%nat 7%nat; ActProcess 0 0; ActProcess 0 0;
   ActRun; ActRun; ActRun; ActWorker 0 0;
   ActCancel 0%nat Canceled; ActWorker 0 1].

(** Four calls fill the intake buffer; no worker runs. *)
Definition fill_run : list (action nat) :=
  [ActCall 1%nat 10%nat; ActProcess 0 0; ActProcess 0 0;
   ActCall 1%nat 11%nat; ActProcess 1 0; ActProcess 1 0;
   ActCall 1%nat 12%nat; ActProcess 2 0; ActProcess 2 0;
   ActCall 1%nat 13%nat; ActProcess 3 0; ActProcess 3 0;
   ActCall 1%nat 14%nat; ActProcess 4 0].

(** The caller gives up on an enqueued job while the worker is about to
    answer it. *)
Definition abandon_run : list (action nat) :=
  [ActCall 1%nat 7%nat; ActProcess 0 0; ActProcess 0 0;
   ActRun; ActRun; ActRun; ActWorker 0 0; ActWorker 0 0; ActWorker 0 0;
   ActCancel 1%nat DeadlineExceeded; ActProcess 0 0].

(** The caller gives up while the worker holds the job and has not yet
    tested its context. *)
Definition cancelled_job_run : list (action nat) :=
  [ActCall 1%nat 7%nat; ActProcess 0 0; ActProcess 0 0;
   ActRun; ActRun; ActRun; ActWorker 0 0; ActWorker 0 0;
   ActCancel 1%nat Canceled].


End Queue.

(* ===================================================================== *)
(** * Package [handler]: the request log *)
(* ===================================================================== *)

Module Handler.
Import Go.

Inductive level := Debug | Info | Error.

Definition StatusServiceUnavailable : Z := 503.

(** The [switch] that ends [Logger]: the level and message of the request
    log line, from the captured status code and [ctx.Err()]. *)
Definition Logger (code : Z) (ctxErr : option ctx_error) : level * string :=
  if (code =? StatusServiceUnavailable)
     && bool_decide (ctxErr = Some Canceled)
  then (Info, "Request cancelled by client")
  else if (code =? StatusServiceUnavailable)
          && bool_decide (ctxErr = Some DeadlineExceeded)
  then (Error, "Request timeout")
  else if code >=? 500
  then (Error, "Request completed")
  else (Debug, "Request completed").

End Handler.

(* ===================================================================== *)
(** * More runs of the worker queue *)
(* ===================================================================== *)

Module QueueScenarios.
Import Go Queue.

(** A handler that returns a result and an error at once. *)
Definition both (_ : context) (d : nat) : option nat * option error :=
  (Some d, Some (Errorf "boom")).
Definition q2 : Queue nat nat := mkQueue 1 4 both 0%nat.

(** A queue built with no workers. *)
Definition q0 : Queue nat nat := mkQueue 0 0 echo 0%nat.

(** One call goes all the way through a worker and back. *)
Definition round_trip_run : list (action nat) :=
  [ActCall 1%nat 7%nat; ActProcess 0 0; ActProcess 0 0;
   ActRun; ActRun; ActRun;
   ActWorker 0 0; ActWorker 0 0; ActWorker 0 0; ActWorker 0 0;
   ActProcess 0 0].

(** [Run] starts, shutdown fires, [Run] closes the intake channel. *)
Definition close_run : list (action nat) :=
  [ActRun; ActRun; ActRun; ActCancel 0%nat Canceled; ActRun; ActRun].

(** A call passes the shutdown check, then shutdown fires and [Run] closes
    the channel while the call is still at its first [select]. *)
Definition race_run : list (action nat) :=
  [ActCall 1%nat 7%nat; ActProcess 0 0;
   ActRun; ActRun; ActRun; ActCancel 0%nat Canceled; ActRun; ActRun].

(** A call on the queue without workers, given up by its caller. *)
Definition idle_run : list (action nat) :=
  [ActCall 1%nat 7%nat; ActProcess 0 0; ActRun; ActRun;
   ActCancel 1%nat Canceled; ActProcess 0 0].

End QueueScenarios.

(* ===================================================================== *)
(** * More vocabulary for the runs of the handler *)
(* ===================================================================== *)

Module ImageApiMore.
Import Fmt Go ImageApi.

Definition counter_eqb (a b : counter) : bool :=
  match a, b with
  | cacheHits, cacheHits | cacheMisses, cacheMisses
  | requestsCoalesced, requestsCoalesced
  | requestsProcessed, requestsProcessed
  | queueFullErrors, queueFullErrors => true
  | _, _ => false
  end.
Definition is_counter (c : counter) (ev : event) : bool :=
  match ev with EvCounterAdd c' => counter_eqb c c' | _ => false end.
Definition is_CacheAdd (ev : event) : bool :=
  match ev with EvCacheAdd _ _ => true | _ => false end.
Definition is_CacheGet (ev : event) : bool :=
  match ev with EvCacheGet _ _ => true | _ => false end.

(** How often a kind of event occurs in a run. *)
Definition count (f : event → bool) (tr : list event) : nat :=
  length (List.filter f tr).

(** The response a rejected request gets. *)
Definition rejection (r : Request) : HandlerError :=
  match ValidateHMAC r with
  | (_, Some _) => InternalServerError
  | (false, None) => BadRequest "Invalid parameters"
  | (true, None) =>
      match GetParams r with
      | inr message => BadRequest message
      | inl _ => InternalServerError
      end
  end.

(** The characters that follow the id in a file name. *)
Definition name_body (p : Params) : list ascii :=
  chars (sprintf_d (Width p)) ++
  "x"%char :: chars (sprintf_d (Height p)) ++
  blur_part p ++ gray_part p ++ chars (Extension p).
Definition name_tail (p : Params) : list ascii := "-"%char :: name_body p.

Definition is_Select (ev : event) : bool :=
  match ev with EvSelect _ _ => true | _ => false end.

(** What the handler answers when the image processor returned [e]. *)
Definition error_answer (e : error) : HandlerError :=
  if errors_Is_QueueFull e then ServiceUnavailable else InternalServerError.
Definition error_message (e : error) : string :=
  if errors_Is_QueueFull e then "error processing image: queue is full"
  else "error processing image".

(** The content type that names an output format. *)
Definition format_content_type (f : OutputFormat) : string :=
  match f with WebP => "image/webp" | JPEG => "image/jpeg" end.



(** ** Requests and runs used in the examples *)

(** A request whose signature does not verify. *)
Definition r_unsigned : Request := mkRequest (false, None) (inl p0) "123".

(** The first request for its fingerprint, processed without error. *)
Definition success_trace : list event :=
  [EvCacheGet key0 None; EvCounterAdd cacheMisses; EvMakeChan 0%nat;
   EvLoadOrStore key0 0%nat 0%nat false; EvCounterAdd requestsProcessed;
   EvProcessImage (buildTask "123" p0) (ProcReturned [] None);
   EvDelete key0; EvClose 0%nat; EvCacheAdd key0 []].

(** The same request when the worker queue is full. *)
Definition queue_full_trace : list event :=
  [EvCacheGet key0 None; EvCounterAdd cacheMisses; EvMakeChan 0%nat;
   EvLoadOrStore key0 0%nat 0%nat false; EvCounterAdd requestsProcessed;
   EvProcessImage (buildTask "123" p0) (ProcReturned [] (Some ErrQueueFull));
   EvDelete key0; EvClose 0%nat; EvCounterAdd queueFullErrors;
   EvLogError "error processing image: queue is full" ErrQueueFull].

(** A waiter whose client goes away. *)
Definition cancelled_trace : list event :=
  [EvCacheGet key0 None; EvCounterAdd cacheMisses; EvMakeChan 1%nat;
   EvLoadOrStore key0 1%nat 0%nat true; EvCounterAdd requestsCoalesced;
   EvSelect 0%nat Cancelled].

End ImageApiMore.

(* ===================================================================== *)
(** * Who is registered in the in-flight map *)
(* ===================================================================== *)

Module Registry.
Import Go ImageApi.

(** A goroutine with history [h] is the registered producer for [key] with
    signal [ch]: it stored [ch] under [key] and has not deleted the entry
    yet. *)
Definition registered (key : string) (ch : chan) (h : list event) : Prop :=
  (∃ actual, EvLoadOrStore key ch actual false ∈ h) ∧ EvDelete key ∉ h.

(** What the histories of the goroutines say about the in-flight map and
    the signals. *)
Record accounted (s : system) : Prop := mkAccounted {
  acc_entry : ∀ key ch,
    inflight (sys_shared s) !! key = Some ch →
    ∃ i g, sys_pool s !! i = Some g ∧ registered key ch (g_hist g);
  acc_owner : ∀ i g key ch,
    sys_pool s !! i = Some g → registered key ch (g_hist g) →
    inflight (sys_shared s) !! key = Some ch;
  acc_closed : ∀ ch,
    ch ∈ closed (sys_shared s) →
    ∃ i g, sys_pool s !! i = Some g ∧ EvClose ch ∈ g_hist g;
  acc_made : ∀ i g ch,
    sys_pool s !! i = Some g → EvMakeChan ch ∈ g_hist g →
    (ch < next_chan (sys_shared s))%nat;
  acc_maker : ∀ i k g g' ch,
    sys_pool s !! i = Some g → sys_pool s !! k = Some g' →
    EvMakeChan ch ∈ g_hist g → EvMakeChan ch ∈ g_hist g' → i = k
}.

(** Two requests for one fingerprint, both past the cache miss; the second
    finds the entry of the first. *)
Definition overlap_run : list action :=
  [Spawn w0 r0; Spawn w0 r0;
   Sched 0 (EvCacheGet key0 None);
   Sched 0 (EvCounterAdd cacheMisses);
   Sched 0 (EvMakeChan 0%nat);
   Sched 1 (EvCacheGet key0 None);
   Sched 1 (EvCounterAdd cacheMisses);
   Sched 1 (EvMakeChan 1%nat);
   Sched 0 (EvLoadOrStore key0 0%nat 0%nat false)].

End Registry.

(* ===================================================================== *)
(** * Lemmas on strings *)
(* ===================================================================== *)

Module FmtFacts.
Import Fmt.

Lemma chars_app (a b : string) : chars (a +:+ b) = chars a ++ chars b.
Proof.
  unfold chars. induction a as [|c a IH]; [done|].
  change (String c a +:+ b) with (String c (a +:+ b)).
  cbn [String.list_ascii_of_string]. by rewrite IH.
Qed.

Lemma chars_inj (a b : string) : chars a = chars b → a = b.
Proof.
  intros H. rewrite <- (String.string_of_list_ascii_of_string a).
  rewrite <- (String.string_of_list_ascii_of_string b).
  unfold chars in H. by rewrite H.
Qed.

Lemma append_assoc (a b c : string) : (a +:+ b) +:+ c = a +:+ (b +:+ c).
Proof. apply chars_inj. rewrite !chars_app. by rewrite app_assoc. Qed.

Lemma append_empty_r (a : string) : a +:+ "" = a.
Proof. apply chars_inj. rewrite chars_app. cbn. by rewrite app_nil_r. Qed.

Lemma digits_uint (d : Decimal.uint) :
  Forall (λ c, is_digit c = true) (chars (NilEmpty.string_of_uint d)).
Proof. induction d; cbn; constructor; done. Qed.

Lemma digits_uint_nz (d : Decimal.uint) :
  Forall (λ c, is_digit c = true) (chars (NilZero.string_of_uint d)) ∧
  chars (NilZero.string_of_uint d) ≠ [].
Proof.
  destruct d; cbn; (split; [repeat constructor; try apply digits_uint|done]).
Qed.

(** A positive number prints as a non-empty run of digits. *)
Lemma sprintf_d_pos (z : Z) :
  0 < z →
  ∃ c l, chars (sprintf_d z) = c :: l ∧ is_digit c = true ∧
         Forall (λ c, is_digit c = true) l.
Proof.
  intros Hz. destruct z as [|p|p]; try lia.
  unfold sprintf_d. cbn [Z.to_int NilZero.string_of_int].
  destruct (digits_uint_nz (Pos.to_uint p)) as [Hall Hne].
  destruct (chars _) as [|c l]; [done|].
  inversion Hall; subst. eauto.
Qed.

Lemma sprintf_d_inj (a b : Z) : sprintf_d a = sprintf_d b → a = b.
Proof.
  unfold sprintf_d. intros H. apply DecimalZ.to_int_inj.
  assert (Hnn : ∀ z, Z.to_int z ≠ Decimal.Pos Decimal.Nil ∧
                     Z.to_int z ≠ Decimal.Neg Decimal.Nil).
  { intros [|p|p]; cbn; split; try done;
      intros [= E]; by apply Unsigned.to_uint_nonnil in E. }
  destruct (Hnn a) as [Ha1 Ha2], (Hnn b) as [Hb1 Hb2].
  pose proof (NilZero.isi _ Ha1 Ha2) as Ea.
  pose proof (NilZero.isi _ Hb1 Hb2) as Eb.
  rewrite H in Ea. congruence.
Qed.

(** Two digit runs, each followed by something that stops a number, agree
    as soon as the concatenations agree. *)
Lemma digit_span (a b r r' : list ascii) :
  Forall (λ c, is_digit c = true) a → Forall (λ c, is_digit c = true) b →
  stops r → stops r' → a ++ r = b ++ r' → a = b ∧ r = r'.
Proof.
  intros Ha. revert b. induction Ha as [|c a Hc Ha IH]; intros b Hb Hr Hr' E.
  - destruct Hb as [|d b Hd Hb]; [done|]. cbn in E. subst r.
    cbn in Hr. congruence.
  - destruct Hb as [|d b Hd Hb].
    + cbn in E. subst r'. cbn in Hr'. congruence.
    + cbn in E. injection E as -> E.
      destruct (IH b Hb Hr Hr' E) as [-> ->]. done.
Qed.

Lemma stops_cons (c : ascii) (r : list ascii) :
  is_digit c = false → stops (c :: r).
Proof. done. Qed.

Lemma has_dash_digit_skip (c : ascii) (r : list ascii) :
  is_dash c = false → has_dash_digit (c :: r) = has_dash_digit r.
Proof. intros H. cbn. rewrite H. by destruct r. Qed.

Lemma has_dash_digit_dash (c : ascii) (r : list ascii) :
  is_digit c = false →
  has_dash_digit ("-"%char :: c :: r) = has_dash_digit (c :: r).
Proof. intros H. cbn [has_dash_digit]. by rewrite H. Qed.

Lemma has_dash_digit_digits (ds r : list ascii) :
  Forall (λ c, is_digit c = true) ds →
  has_dash_digit (ds ++ r) = has_dash_digit r.
Proof.
  induction 1 as [|c ds Hc _ IH]; [done|].
  rewrite <- IH. apply has_dash_digit_skip.
  unfold is_dash. destruct (Ascii.eqb_spec c "-"%char); [subst; done|done].
Qed.

Lemma has_dash_digit_found (s r : list ascii) (d : ascii) :
  is_digit d = true → has_dash_digit (s ++ "-"%char :: d :: r) = true.
Proof.
  intros Hd. induction s as [|c s IH].
  - cbn. by rewrite Hd.
  - change ((c :: s) ++ ?x) with (c :: (s ++ x)).
    cbn [has_dash_digit]. destruct (s ++ _) eqn:E.
    + by destruct s.
    + rewrite IH. apply orb_true_r.
Qed.

End FmtFacts.

(* ===================================================================== *)
(** * Fingerprint and file name *)
(* ===================================================================== *)

Module ImageApiFacts.
Import Fmt Go ImageApi FmtFacts.

Example buildCacheKey_plain :
  buildCacheKey "123" (mkParams 100 100 ".jpg" false 0 false)
  = "123-100x100.jpg".
Proof. reflexivity. Qed.

Example buildCacheKey_blur_gray :
  buildCacheKey "7" (mkParams 200 200 ".webp" true 3 true)
  = "7-200x200.webp-blur_3-grayscale".
Proof. reflexivity. Qed.

Example buildFilename_blur_gray :
  buildFilename "7" (mkParams 200 200 ".webp" true 3 true)
  = "7-200x200-blur_3-grayscale.webp".
Proof. reflexivity. Qed.

Lemma buildCacheKey_spec (imageID : string) (p : Params) :
  buildCacheKey imageID p = spec_fingerprint imageID p.
Proof.
  unfold buildCacheKey, spec_fingerprint.
  destruct (Blur p), (Grayscale p);
    rewrite ?append_assoc, ?append_empty_r; reflexivity.
Qed.

Lemma key_chars (imageID : string) (p : Params) :
  chars (buildCacheKey imageID p) = chars imageID ++ key_tail p.
Proof.
  rewrite buildCacheKey_spec.
  unfold spec_fingerprint, key_tail, key_body, blur_part, gray_part.
  rewrite !chars_app.
  destruct (Blur p), (Grayscale p); rewrite ?chars_app; reflexivity.
Qed.

Lemma stops_ext (p : Params) (r : list ascii) :
  Extension p = ".jpg" ∨ Extension p = ".webp" →
  stops (chars (Extension p) ++ r).
Proof. intros [-> | ->]; reflexivity. Qed.

Lemma stops_gray (p : Params) : stops (gray_part p).
Proof. unfold gray_part. destruct (Grayscale p); reflexivity. Qed.

Lemma gray_part_inj (p1 p2 : Params) :
  gray_part p1 = gray_part p2 → Grayscale p1 = Grayscale p2.
Proof. unfold gray_part. by destruct (Grayscale p1), (Grayscale p2). Qed.

Lemma digits_of_pos (z : Z) :
  0 < z → Forall (λ c, is_digit c = true) (chars (sprintf_d z)).
Proof.
  intros Hz. destruct (sprintf_d_pos z Hz) as (c & l & -> & Hc & Hl).
  by constructor.
Qed.

(** The part after the id determines every parameter. *)
Lemma key_tail_inj (id1 id2 : string) (p1 p2 : Params) :
  in_space id1 p1 → in_space id2 p2 → key_tail p1 = key_tail p2 →
  Width p1 = Width p2 ∧ Height p1 = Height p2 ∧
  Extension p1 = Extension p2 ∧ Blur p1 = Blur p2 ∧
  (Blur p1 = true → BlurAmount p1 = BlurAmount p2) ∧
  Grayscale p1 = Grayscale p2.
Proof.
  intros (_ & Hw1 & Hh1 & He1 & Hb1) (_ & Hw2 & Hh2 & He2 & Hb2) E.
  unfold key_tail, key_body in E. injection E as E.
  pose proof (digits_of_pos _ (proj1 Hw1)) as Dw1.
  pose proof (digits_of_pos _ (proj1 Hw2)) as Dw2.
  pose proof (digits_of_pos _ (proj1 Hh1)) as Dh1.
  pose proof (digits_of_pos _ (proj1 Hh2)) as Dh2.
  destruct (digit_span _ _ _ _ Dw1 Dw2 (stops_cons "x" _ eq_refl)
              (stops_cons "x" _ eq_refl) E) as [EW E1].
  injection E1 as E1.
  destruct (digit_span _ _ _ _ Dh1 Dh2 (stops_ext p1 _ He1)
              (stops_ext p2 _ He2) E1) as [EH E2].
  clear E E1. rename E2 into E.
  apply chars_inj, sprintf_d_inj in EW. apply chars_inj, sprintf_d_inj in EH.
  assert (Extension p1 = Extension p2 ∧
          blur_part p1 ++ gray_part p1 = blur_part p2 ++ gray_part p2)
    as [EE E'].
  { destruct He1 as [e1 | e1], He2 as [e2 | e2]; rewrite e1, e2 in E |- *;
      cbn in E; try discriminate; (split; [done|]); by simplify_eq. }
  clear E. split; [done|]. split; [done|]. split; [done|].
  unfold blur_part in E'.
  destruct (Blur p1) eqn:B1, (Blur p2) eqn:B2.
  - rewrite <- !app_assoc in E'. apply app_inv_head in E'.
    assert (Db1 : Forall (λ c, is_digit c = true)
                         (chars (sprintf_d (BlurAmount p1))))
      by (apply digits_of_pos; specialize (Hb1 eq_refl); lia).
    assert (Db2 : Forall (λ c, is_digit c = true)
                         (chars (sprintf_d (BlurAmount p2))))
      by (apply digits_of_pos; specialize (Hb2 eq_refl); lia).
    destruct (digit_span _ _ _ _ Db1 Db2 (stops_gray p1) (stops_gray p2) E')
      as [EB EG].
    apply chars_inj, sprintf_d_inj in EB. apply gray_part_inj in EG. done.
  - exfalso. unfold gray_part in E'. cbn in E'.
    destruct (Grayscale p1), (Grayscale p2); cbn in E'; discriminate.
  - exfalso. unfold gray_part in E'. cbn in E'.
    destruct (Grayscale p1), (Grayscale p2); cbn in E'; discriminate.
  - cbn in E'. apply gray_part_inj in E'. done.
Qed.

Lemma key_tail_starts (imageID : string) (p : Params) :
  in_space imageID p →
  ∃ d r, key_tail p = "-"%char :: d :: r ∧ is_digit d = true.
Proof.
  intros (_ & Hw & _). unfold key_tail, key_body.
  destruct (sprintf_d_pos (Width p)) as (c & l & -> & Hc & _); [lia|].
  eauto.
Qed.

Ltac walk_dash_digit :=
  repeat first
    [ rewrite has_dash_digit_digits by assumption
    | rewrite has_dash_digit_skip by done
    | rewrite has_dash_digit_dash by done ].

(** Past its leading dash, the part after the id never shows a dash
    followed by a digit. *)
Lemma key_body_no_dash_digit (imageID : string) (p : Params) :
  in_space imageID p → has_dash_digit (key_body p) = false.
Proof.
  intros (_ & Hw & Hh & He & Hb). unfold key_body.
  pose proof (digits_of_pos _ (proj1 Hw)) as Dw.
  pose proof (digits_of_pos _ (proj1 Hh)) as Dh.
  assert (Hg : has_dash_digit (gray_part p) = false).
  { unfold gray_part. by destruct (Grayscale p). }
  assert (Hbg : has_dash_digit (blur_part p ++ gray_part p) = false).
  { unfold blur_part. destruct (Blur p); [|done].
    assert (Db : Forall (λ c, is_digit c = true)
                        (chars (sprintf_d (BlurAmount p))))
      by (apply digits_of_pos; specialize (Hb eq_refl); lia).
    rewrite <- app_assoc.
    change (chars "-blur_" ++ ?r)
      with ("-"%char :: "b"%char :: "l"%char :: "u"%char :: "r"%char
                     :: "_"%char :: r).
    walk_dash_digit. done. }
  walk_dash_digit.
  destruct He as [-> | ->].
  - change (chars ".jpg" ++ ?r)
      with ("."%char :: "j"%char :: "p"%char :: "g"%char :: r).
    walk_dash_digit. done.
  - change (chars ".webp" ++ ?r)
      with ("."%char :: "w"%char :: "e"%char :: "b"%char :: "p"%char :: r).
    walk_dash_digit. done.
Qed.

(** The id can be read off the fingerprint. *)
Lemma key_id_inj (id1 id2 : string) (p1 p2 : Params) :
  in_space id1 p1 → in_space id2 p2 →
  chars id1 ++ key_tail p1 = chars id2 ++ key_tail p2 →
  id1 = id2 ∧ key_tail p1 = key_tail p2.
Proof.
  intros H1 H2 E.
  assert (Hshift : ∀ ida pa idb pb (l : list ascii),
            in_space ida pa → in_space idb pb →
            key_tail pa = l ++ key_tail pb → l = []).
  { intros ida pa idb pb l Ha Hb El. destruct l as [|c l]; [done|exfalso].
    destruct (key_tail_starts _ _ Hb) as (d & r & Et & Hd).
    rewrite Et in El. unfold key_tail in El. injection El as _ El.
    pose proof (key_body_no_dash_digit _ _ Ha) as Hno.
    rewrite El, has_dash_digit_found in Hno by done. done. }
  apply app_eq_app in E as [l [[E1 E2] | [E1 E2]]].
  - pose proof (Hshift _ _ _ _ _ H2 H1 E2) as ->.
    rewrite app_nil_r in E1. cbn in E2. split; [by apply chars_inj|done].
  - pose proof (Hshift _ _ _ _ _ H1 H2 E2) as ->.
    rewrite app_nil_r in E1. cbn in E2. split; [by apply chars_inj|done].
Qed.

(** C4. Over the parameter space (non-empty id, width and height in
    1..5000, extension [.jpg] or [.webp], blur amount in 1..10 when blur is
    set), [buildCacheKey] yields
    [{id}-{width}x{height}{extension}[-blur_{n}][-grayscale]], and two
    requests get the same fingerprint exactly when they carry the same
    parameter vector: the mapping is stable and injective. *)
Theorem fingerprint_stable_injective
    (id1 id2 : string) (p1 p2 : Params)
    (H1 : in_space id1 p1) (H2 : in_space id2 p2) :
  buildCacheKey id1 p1 = spec_fingerprint id1 p1 ∧
  (buildCacheKey id1 p1 = buildCacheKey id2 p2 ↔ same_vector id1 p1 id2 p2).
Proof.
  split; [apply buildCacheKey_spec|]. split.
  - intros E. apply (f_equal chars) in E. rewrite !key_chars in E.
    destruct (key_id_inj _ _ _ _ H1 H2 E) as [Eid Et].
    split; [done|]. by apply (key_tail_inj id1 id2).
  - intros (-> & EW & EH & EE & EB & EA & EG).
    unfold buildCacheKey. rewrite EW, EH, EE, <- EB, EG.
    destruct (Blur p1); [|done]. by rewrite EA.
Qed.

Lemma fingerprint_stable_injective_witness :
  let p1 := mkParams 200 200 ".webp" true 3 false in
  let p2 := mkParams 200 200 ".webp" true 4 false in
  in_space "7" p1 ∧ in_space "7" p2 ∧
  buildCacheKey "7" p1 = "7-200x200.webp-blur_3" ∧
  ¬ same_vector "7" p1 "7" p2 ∧
  buildCacheKey "7" p1 ≠ buildCacheKey "7" p2.
Proof.
  assert (S1 : in_space "7" (mkParams 200 200 ".webp" true 3 false)).
  { unfold in_space; cbn; repeat split; try lia; auto; done. }
  assert (S2 : in_space "7" (mkParams 200 200 ".webp" true 4 false)).
  { unfold in_space; cbn; repeat split; try lia; auto; done. }
  pose proof (fingerprint_stable_injective _ _ _ _ S1 S2) as [Hs Hi].
  assert (Hn : ¬ same_vector "7" (mkParams 200 200 ".webp" true 3 false)
                             "7" (mkParams 200 200 ".webp" true 4 false)).
  { intros (_ & _ & _ & _ & _ & Ha & _). cbn in Ha. specialize (Ha eq_refl).
    discriminate. }
  split; [exact S1|]. split; [exact S2|]. split; [reflexivity|].
  split; [exact Hn|]. intros E. apply Hn, Hi, E.
Defined.

Lemma buildFilename_spec (imageID : string) (p : Params) :
  buildFilename imageID p = spec_filename imageID p.
Proof.
  unfold buildFilename, spec_filename.
  destruct (Blur p), (Grayscale p);
    rewrite ?append_assoc, ?append_empty_r; reflexivity.
Qed.

(** The names [sendImage] sets, in canonical form: only [Picsum-ID]
    changes. *)
Lemma canonical_names :
  CanonicalMIMEHeaderKey "Content-Disposition" = "Content-Disposition" ∧
  CanonicalMIMEHeaderKey "Content-Type" = "Content-Type" ∧
  CanonicalMIMEHeaderKey "Content-Length" = "Content-Length" ∧
  CanonicalMIMEHeaderKey "Cache-Control" = "Cache-Control" ∧
  CanonicalMIMEHeaderKey "Picsum-ID" = "Picsum-Id" ∧
  CanonicalMIMEHeaderKey "Timing-Allow-Origin" = "Timing-Allow-Origin".
Proof. repeat split; vm_compute; reflexivity. Qed.

(** [sendImage] with the header names as the map stores them. *)
Lemma sendImage_stored (w : ResponseWriter) (imageID : string) (p : Params)
    (img : bytes) :
  sendImage w imageID p img
  = (Writer_Write img
       (mkWriter
          (<["Timing-Allow-Origin" := "*"]>
             (<["Picsum-Id" := imageID]>
                (<["Cache-Control" := "public, max-age=2592000, stale-while-revalidate=60, stale-if-error=43200, immutable"]>
                   (<["Content-Length"
                      := sprintf_d (Z.of_nat (length img))]>
                      (<["Content-Type" := getContentType (Extension p)]>
                         (<["Content-Disposition"
                            := content_disposition (buildFilename imageID p)]>
                            (Header w)))))))
          (Status w) (Body w)),
     None).
Proof.
  destruct canonical_names as (E1 & E2 & E3 & E4 & E5 & E6).
  unfold sendImage, Header_Set, content_disposition. cbn.
  by rewrite E1, E2, E3, E4, E5, E6.
Qed.

Lemma sendImage_disposition (w : ResponseWriter) (imageID : string)
    (p : Params) (img : bytes) :
  Header (sendImage w imageID p img).1 !! "Content-Disposition"
  = Some (content_disposition (buildFilename imageID p)).
Proof.
  rewrite sendImage_stored. unfold Writer_Write, WriteHeader. cbn.
  destruct (Status w); cbn;
    rewrite !lookup_insert_ne by done; by rewrite lookup_insert_eq.
Qed.

Lemma content_disposition_inj (a b : string) :
  content_disposition a = content_disposition b → a = b.
Proof.
  unfold content_disposition. intros E.
  apply (f_equal chars) in E. rewrite !chars_app in E.
  do 2 apply app_inv_head in E. apply app_inv_tail in E.
  by apply chars_inj.
Qed.

Lemma sendImage_status (w : ResponseWriter) (imageID : string)
    (p : Params) (img : bytes) :
  (sendImage w imageID p img).2 = None ∧
  (Status w = None → Status (sendImage w imageID p img).1 = Some 200).
Proof.
  split; [reflexivity|]. intros Hs.
  rewrite sendImage_stored. unfold Writer_Write, WriteHeader. cbn.
  by rewrite Hs.
Qed.

(** The file name and the fingerprint differ in where the extension goes. *)
Lemma filename_vs_fingerprint (imageID : string) (p : Params) :
  Extension p = ".jpg" ∨ Extension p = ".webp" →
  (spec_filename imageID p = buildCacheKey imageID p
   ↔ Blur p = false ∧ Grayscale p = false).
Proof.
  intros Hext.
  rewrite buildCacheKey_spec. unfold spec_filename, spec_fingerprint. split.
  - intros E. apply (f_equal chars) in E. rewrite !chars_app in E.
    do 5 apply app_inv_head in E.
    destruct Hext as [Hx | Hx]; rewrite Hx in E;
      destruct (Blur p), (Grayscale p); cbn in E; try discriminate E; done.
  - intros [-> ->]. by rewrite !append_empty_r.
Qed.

End ImageApiFacts.

(* ===================================================================== *)
(** * The runs of the coalescing handler *)
(* ===================================================================== *)

Module CoalesceFacts.
Import Fmt Go ImageApi FmtFacts ImageApiFacts.

Ltac trace_step H :=
  match type of H with
  | after_trace _ ?tr = Some _ =>
      destruct tr as [|[] tr]; cbn [after_trace after] in H;
      try discriminate H;
      repeat match type of H with
             | context [decide ?P] => destruct (decide P)
             end;
      try discriminate H; destruct_and?; simplify_eq/=
  end.

Section Inversion.
Context {R : Type}.
Implicit Types (tr : list event) (fin k : prog R).

Lemma inv_Ret (r : R) tr fin :
  after_trace (Ret r) tr = Some fin → tr = [] ∧ fin = Ret r.
Proof. intros H. by trace_step H. Qed.

Lemma inv_Panic tr fin :
  after_trace (@Panic R) tr = Some fin → tr = [] ∧ fin = Panic.
Proof. intros H. by trace_step H. Qed.

Lemma inv_CacheGet key (k : option bytes → prog R) tr fin :
  after_trace (CacheGet key k) tr = Some fin → finished fin = true →
  ∃ cached tr', tr = EvCacheGet key cached :: tr' ∧
                after_trace (k cached) tr' = Some fin.
Proof. intros H Hf. trace_step H. eauto. Qed.

Lemma inv_CacheAdd key img k tr fin :
  after_trace (CacheAdd key img k) tr = Some fin → finished fin = true →
  ∃ tr', tr = EvCacheAdd key img :: tr' ∧ after_trace k tr' = Some fin.
Proof. intros H Hf. trace_step H. eauto. Qed.

Lemma inv_CounterAdd c k tr fin :
  after_trace (CounterAdd c k) tr = Some fin → finished fin = true →
  ∃ tr', tr = EvCounterAdd c :: tr' ∧ after_trace k tr' = Some fin.
Proof. intros H Hf. trace_step H. eauto. Qed.

Lemma inv_MakeChan (k : chan → prog R) tr fin :
  after_trace (MakeChan k) tr = Some fin → finished fin = true →
  ∃ ch tr', tr = EvMakeChan ch :: tr' ∧ after_trace (k ch) tr' = Some fin.
Proof. intros H Hf. trace_step H. eauto. Qed.

Lemma inv_LoadOrStore key ch (k : chan → bool → prog R) tr fin :
  after_trace (LoadOrStore key ch k) tr = Some fin → finished fin = true →
  ∃ actual loaded tr',
    tr = EvLoadOrStore key ch actual loaded :: tr' ∧
    after_trace (k actual loaded) tr' = Some fin.
Proof. intros H Hf. trace_step H. eauto. Qed.

Lemma inv_Delete key k tr fin :
  after_trace (Delete key k) tr = Some fin → finished fin = true →
  ∃ tr', tr = EvDelete key :: tr' ∧ after_trace k tr' = Some fin.
Proof. intros H Hf. trace_step H. eauto. Qed.

Lemma inv_Close ch k tr fin :
  after_trace (Close ch k) tr = Some fin → finished fin = true →
  ∃ tr', tr = EvClose ch :: tr' ∧ after_trace k tr' = Some fin.
Proof. intros H Hf. trace_step H. eauto. Qed.

Lemma inv_Select ch (k : wake → prog R) tr fin :
  after_trace (Select ch k) tr = Some fin → finished fin = true →
  ∃ arm tr', tr = EvSelect ch arm :: tr' ∧
             after_trace (k arm) tr' = Some fin.
Proof. intros H Hf. trace_step H. eauto. Qed.

Lemma inv_ProcessImage t (k : bytes → option error → prog R) tr fin :
  after_trace (ProcessImage t k) tr = Some fin → finished fin = true →
  ∃ a tr', tr = EvProcessImage t a :: tr' ∧
           after_trace (match a with
                        | ProcReturned img err => k img err
                        | ProcPanicked => Panic
                        end) tr' = Some fin.
Proof.
  intros H Hf. trace_step H.
  match goal with a : proc_answer |- _ => exists a; destruct a end; eauto.
Qed.

Lemma inv_LogError message err k tr fin :
  after_trace (LogError message err k) tr = Some fin → finished fin = true →
  ∃ tr', tr = EvLogError message err :: tr' ∧ after_trace k tr' = Some fin.
Proof. intros H Hf. trace_step H. eauto. Qed.

End Inversion.

(** Peel the next operation off a finished run. *)
Ltac peel H Hf :=
  first
    [ apply inv_Ret in H as [-> ->]
    | apply inv_Panic in H as [-> ->]
    | apply inv_CounterAdd in H as (? & -> & H); [|exact Hf]
    | apply inv_CacheAdd in H as (? & -> & H); [|exact Hf]
    | apply inv_Delete in H as (? & -> & H); [|exact Hf]
    | apply inv_Close in H as (? & -> & H); [|exact Hf]
    | apply inv_LogError in H as (? & -> & H); [|exact Hf] ].

Lemma produce_runs (w : ResponseWriter) (imageID : string) (p : Params)
    (key : string) (dch : chan) (loaded : bool)
    (tr : list event) (fin : prog result) :
  after_trace (produce w imageID p key dch loaded) tr = Some fin →
  finished fin = true →
  ∃ a, (tr, fin) = produce_trace w imageID p key dch loaded a.
Proof.
  intros H Hf. unfold produce in H. peel H Hf.
  apply inv_ProcessImage in H as (a & ? & -> & H); [|done].
  exists a. unfold produce_trace, cleanup_trace.
  destruct a as [img [e|]|]; [destruct (errors_Is_QueueFull e)| |];
    destruct loaded; cbn [negb] in H |- *; repeat peel H Hf; reflexivity.
Qed.

(** Every finished run of [imageHandler] is either a rejection before the
    cache is consulted or one of the listed runs. *)
Lemma imageHandler_runs (w : ResponseWriter) (r : Request)
    (tr : list event) (fin : prog result) :
  after_trace (imageHandler w r) tr = Some fin → finished fin = true →
  (rejected r ∧ tr = [] ∧ ∃ e, fin = Ret (w, Some e)) ∨
  ∃ p a, ValidateHMAC r = (true, None) ∧ GetParams r = inl p ∧
         (tr, fin) = handler_trace w (Vars_id r) p a.
Proof.
  intros H Hf. unfold imageHandler in H.
  destruct (ValidateHMAC r) as [[|] [e|]] eqn:Ev;
    try (apply inv_Ret in H as [-> ->]; left;
         split; [left; congruence|eauto]).
  destruct (GetParams r) as [p|message] eqn:Ep;
    [|apply inv_Ret in H as [-> ->]; left; split; [right; eauto|eauto]].
  right. exists p.
  apply inv_CacheGet in H as (cached & ? & -> & H); [|done].
  destruct cached as [img|].
  { repeat peel H Hf.
    by exists (mkAnswers (Some img) 0%nat 0%nat false Cancelled None
                         ProcPanicked). }
  peel H Hf.
  apply inv_MakeChan in H as (dch & ? & -> & H); [|done].
  apply inv_LoadOrStore in H as (actual & loaded & ? & -> & H); [|done].
  destruct loaded.
  - peel H Hf. apply inv_Select in H as (arm & ? & -> & H); [|done].
    destruct arm.
    + apply inv_CacheGet in H as (cached & ? & -> & H); [|done].
      destruct cached as [img|].
      * peel H Hf.
        by exists (mkAnswers None dch actual true Signalled (Some img)
                             ProcPanicked).
      * apply produce_runs in H as [a Ha]; [|done].
        exists (mkAnswers None dch actual true Signalled None a).
        split; [done|]. split; [done|].
        unfold handler_trace. cbn. by rewrite <- Ha.
    + peel H Hf.
      by exists (mkAnswers None dch actual true Cancelled None ProcPanicked).
  - apply produce_runs in H as [a Ha]; [|done].
    exists (mkAnswers None dch actual false Cancelled None a).
    split; [done|]. split; [done|].
    unfold handler_trace. cbn. by rewrite <- Ha.
Qed.

(** Conversely, each listed run is a run of the handler. *)
Lemma handler_trace_runs (w : ResponseWriter) (r : Request) (p : Params)
    (a : answers) :
  ValidateHMAC r = (true, None) → GetParams r = inl p →
  after_trace (imageHandler w r) (handler_trace w (Vars_id r) p a).1
  = Some (handler_trace w (Vars_id r) p a).2 ∧
  finished (handler_trace w (Vars_id r) p a).2 = true.
Proof.
  intros Ev Ep. unfold imageHandler. rewrite Ev, Ep.
  destruct a as [[c|] d x [|] [|] [rc|] [img [e|]|]];
    unfold handler_trace, produce_trace, cleanup_trace, produce; cbn;
    try (destruct (errors_Is_QueueFull e) eqn:Eq; cbn);
    repeat first
      [ match goal with
        | Hq : errors_Is_QueueFull _ = _ |- _ => rewrite Hq
        end
      | match goal with
        | |- context [decide ?P] => destruct (decide P)
        end
      | progress cbn ];
    first [ done
          | exfalso;
            match goal with n : ¬ _ |- _ => apply n; by repeat split end ].
Qed.


(** Every exit of the original storer that is not a panic deletes the
    in-flight entry and then closes its signal; a panic does neither. *)
Lemma storer_cleanup (w : ResponseWriter) (r : Request) (tr : list event)
    (fin : prog result) (key : string) (dch actual : chan) :
  after_trace (imageHandler w r) tr = Some fin → finished fin = true →
  tr !! 3%nat = Some (EvLoadOrStore key dch actual false) →
  match fin with
  | Panic => existsb (λ ev, is_Delete ev || is_Close ev) tr = false
  | _ => tr !! 6%nat = Some (EvDelete key) ∧ tr !! 7%nat = Some (EvClose dch)
  end.
Proof.
  intros Hrun Hfin Hst.
  destruct (imageHandler_runs w r tr fin Hrun Hfin)
    as [(_ & -> & _) | (p & a & Ev & Ep & Ha)]; [done|].
  destruct a as [[c|] d x [|] [|] [rc|] [img [e|]|]];
    unfold handler_trace, produce_trace, cleanup_trace in Ha; cbn in Ha;
    try (destruct (errors_Is_QueueFull e); cbn in Ha);
    injection Ha as -> ->; cbn in Hst |- *; simplify_eq; done.
Qed.

(** C2 fails on the panic path.  The request [r0] is the first for its
    fingerprint, so it stores its channel in the in-flight map; the image
    processor panics; the goroutine unwinds to [Recovery], which answers
    500.  The entry is still in the in-flight map and its signal is not
    closed, and the goroutine performed no delete and no close.  A later
    request for the same fingerprint loads the stale entry and its [select]
    cannot take the signal arm. *)
Theorem producer_panic_leaks_inflight_entry :
  ∃ s g s',
    sys_run panic_run empty_system = Some s ∧
    sys_pool s = [g] ∧ g_code g = Panic ∧
    (Recovery w0 (g_code g) ≫= Status) = Some 500 ∧
    g_hist g !! 3%nat = Some (EvLoadOrStore key0 0%nat 0%nat false) ∧
    existsb (λ ev, is_Delete ev || is_Close ev) (g_hist g) = false ∧
    inflight (sys_shared s) !! key0 = Some 0%nat ∧
    (0%nat ∉ closed (sys_shared s)) ∧
    sys_run late_run s = Some s' ∧
    sys_step (Sched 1 (EvSelect 0%nat Signalled)) s' = None.
Proof.
  eexists _, _, _.
  split; [vm_compute; reflexivity|].
  split; [reflexivity|].
  split; [reflexivity|]. split; [reflexivity|]. split; [reflexivity|].
  split; [reflexivity|]. split; [vm_compute; reflexivity|].
  split; [vm_compute; set_solver|].
  split; [vm_compute; reflexivity|].
  vm_compute. reflexivity.
Qed.

(** A processing error that is the queue-full sentinel is counted and
    answered with 503. *)
Lemma queue_full_answered_503 (w : ResponseWriter) (r : Request)
    (tr : list event) (fin : prog result) (i : nat) (t : Task) (img : bytes)
    (e : error) :
  after_trace (imageHandler w r) tr = Some fin → finished fin = true →
  tr !! i = Some (EvProcessImage t (ProcReturned img (Some e))) →
  errors_Is_QueueFull e = true →
  fin = Ret (w, Some ServiceUnavailable) ∧ Code ServiceUnavailable = 503 ∧
  EvCounterAdd queueFullErrors ∈ tr.
Proof.
  intros Hrun Hfin Hi Hq.
  destruct (imageHandler_runs w r tr fin Hrun Hfin)
    as [(_ & -> & _) | (p & a & Ev & Ep & Ha)]; [done|].
  destruct a as [[c|] d x [|] [|] [rc|] [img' [e'|]|]];
    unfold handler_trace, produce_trace, cleanup_trace in Ha; cbn in Ha;
    try (destruct (errors_Is_QueueFull e') eqn:Eq; cbn in Ha);
    injection Ha as -> ->;
    do 12 (try (destruct i as [|i]; simplify_eq/=));
    try congruence;
    (split; [done|]); (split; [done|]);
    apply list_elem_of_In; cbn; tauto.
Qed.

(** ** Goroutines of the system run the handler *)

Lemma after_trace_snoc {R} (p : prog R) (tr : list event) (ev : event) :
  after_trace p (tr ++ [ev]) = after_trace p tr ≫= λ p', after p' ev.
Proof.
  revert p. induction tr as [|e tr IH]; intros p; cbn.
  - by destruct (after p ev).
  - destruct (after p e); [apply IH|done].
Qed.

(** What a goroutine of a reachable system has done so far is a run of
    [imageHandler] on its request, and what it has left is the rest. *)
Lemma history_is_run (s : system) (i : nat) (g : goroutine) :
  reachable s → sys_pool s !! i = Some g →
  ∃ w r, after_trace (imageHandler w r) (g_hist g) = Some (g_code g).
Proof.
  intros [acts Hrun]. revert i g.
  assert (Hgen : ∀ s0,
            (∀ i g, sys_pool s0 !! i = Some g →
               ∃ w r, after_trace (imageHandler w r) (g_hist g)
                      = Some (g_code g)) →
            sys_run acts s0 = Some s →
            ∀ i g, sys_pool s !! i = Some g →
               ∃ w r, after_trace (imageHandler w r) (g_hist g)
                      = Some (g_code g)).
  { clear Hrun. induction acts as [|a acts IH]; intros s0 H0 Hrun.
    - cbn in Hrun. by simplify_eq.
    - cbn in Hrun. destruct (sys_step a s0) as [s1|] eqn:Es; [|done].
      cbn in Hrun. apply (IH s1); [|done]. clear IH Hrun.
      intros i g Hg. destruct a as [w r|k ev|k e|key]; cbn in Es.
      + simplify_eq. cbn in Hg.
        apply lookup_app_Some in Hg as [Hg|[_ Hg]]; [eauto|].
        apply list_lookup_singleton_Some in Hg as [_ <-]. by exists w, r.
      + destruct (sys_pool s0 !! k) as [g0|] eqn:Ek; [|done]. cbn in Es.
        destruct (after (g_code g0) ev) as [code|] eqn:Ea; [|done].
        cbn in Es.
        destruct (apply_event (g_ctx g0) (sys_shared s0) ev); [|done].
        cbn in Es. simplify_eq. cbn in Hg.
        destruct (decide (k = i)) as [->|Hne].
        * rewrite list_lookup_insert_eq in Hg
            by (by eapply lookup_lt_Some).
          simplify_eq. cbn. destruct (H0 _ _ Ek) as (w & r & Hr).
          exists w, r. rewrite after_trace_snoc, Hr. done.
        * rewrite list_lookup_insert_ne in Hg by done. eauto.
      + destruct (sys_pool s0 !! k) as [g0|] eqn:Ek; [|done]. cbn in Es.
        destruct (g_ctx g0); [done|]. simplify_eq. cbn in Hg.
        destruct (decide (k = i)) as [->|Hne].
        * rewrite list_lookup_insert_eq in Hg
            by (by eapply lookup_lt_Some).
          simplify_eq. cbn. eauto.
        * rewrite list_lookup_insert_ne in Hg by done. eauto.
      + simplify_eq. cbn in Hg. eauto. }
  apply (Hgen empty_system); [|done]. intros i g Hg. done.
Qed.


(** C5, as the specification states it, fails: a cache hit for a request
    with blur is answered 200 with a file name that is not the
    fingerprint. *)
Lemma disposition_differs_from_fingerprint :
  ∃ w', after_trace (imageHandler w0 rb) hit_trace = Some (Ret (w', None)) ∧
        Status w' = Some 200 ∧
        buildCacheKey "7" pb = "7-200x200.webp-blur_3" ∧
        Header w' !! "Content-Disposition"
        = Some (content_disposition "7-200x200-blur_3.webp") ∧
        Header w' !! "Content-Disposition"
        ≠ Some (content_disposition (buildCacheKey "7" pb)).
Proof.
  eexists. split; [reflexivity|]. split; [reflexivity|].
  split; [reflexivity|]. split; [apply sendImage_disposition|].
  intros E.
  assert (E' : Some (content_disposition (buildFilename "7" pb))
               = Some (content_disposition (buildCacheKey "7" pb)))
    by (rewrite <- (sendImage_disposition w0 "7" pb []); exact E).
  apply (inj Some), content_disposition_inj in E'.
  vm_compute in E'. discriminate E'.
Qed.

(** C5 (amended). Every response the handler sends without an error was
    written by [sendImage]: its status is 200 and it carries
    [Content-Disposition: inline; filename="{name}"] where the name is
    [{id}-{width}x{height}[-blur_{n}][-grayscale]{extension}], the extension
    last.  For an extension [.jpg] or [.webp] that name is the fingerprint
    exactly when neither blur nor grayscale is set. *)
Theorem disposition_is_filename
    (w w' : ResponseWriter) (r : Request) (tr : list event)
    (Hrun : after_trace (imageHandler w r) tr = Some (Ret (w', None))) :
  ∃ p img, GetParams r = inl p ∧
    w' = (sendImage w (Vars_id r) p img).1 ∧
    (Status w = None → Status w' = Some 200) ∧
    Header w' !! "Content-Disposition"
    = Some (content_disposition (spec_filename (Vars_id r) p)) ∧
    (Extension p = ".jpg" ∨ Extension p = ".webp" →
     (spec_filename (Vars_id r) p = buildCacheKey (Vars_id r) p
      ↔ Blur p = false ∧ Grayscale p = false)).
Proof.
  destruct (imageHandler_runs w r tr _ Hrun eq_refl)
    as [(_ & _ & e & [=]) | (p & a & Ev & Ep & Ha)].
  exists p.
  assert (∃ img, w' = (sendImage w (Vars_id r) p img).1) as [img ->].
  { destruct a as [[c|] d x [|] [|] [rc|] [img' [e'|]|]];
      unfold handler_trace, produce_trace, cleanup_trace in Ha; cbn in Ha;
      try (destruct (errors_Is_QueueFull e'); cbn in Ha);
      simplify_eq; eauto. }
  exists img. split; [done|]. split; [done|].
  split; [apply sendImage_status|].
  split; [by rewrite sendImage_disposition, buildFilename_spec|].
  apply filename_vs_fingerprint.
Qed.

Lemma disposition_is_filename_witness :
  ∃ w', after_trace (imageHandler w0 r0) [EvCacheGet key0 (Some []);
                                          EvCounterAdd cacheHits]
        = Some (Ret (w', None)) ∧
        Status w' = Some 200 ∧
        Header w' !! "Content-Disposition"
        = Some (content_disposition "123-100x100.jpg") ∧
        buildCacheKey "123" p0 = "123-100x100.jpg".
Proof.
  eexists. split; [reflexivity|].
  destruct (disposition_is_filename w0 _ r0 _
              (eq_refl : after_trace (imageHandler w0 r0)
                           [EvCacheGet key0 (Some []); EvCounterAdd cacheHits]
                         = Some (Ret ((sendImage w0 "123" p0 []).1, None))))
    as (p & img & Ep & Ew & Hs & Hh & Hiff).
  injection Ep as <-.
  split; [exact (Hs eq_refl)|]. split; [exact Hh|]. reflexivity.
Defined.

End CoalesceFacts.

(* ===================================================================== *)
(** * The worker queue *)
(* ===================================================================== *)

Module QueueFacts.
Import Go Queue.

Section Facts.
Context {Data Result : Type}.
Implicit Types (q : Queue Data Result) (s : system Data Result)
               (st : state Data Result) (w : worker Data Result)
               (j : job Data) (r : jobResult Result).

(** Induction over the executions of the system. *)
Lemma reachable_ind q (P : system Data Result → Prop) :
  P init →
  (∀ a s s', P s → sys_step q a s = Some s' → P s') →
  ∀ s, reachable q s → P s.
Proof.
  intros Hinit Hstep s [acts Hexec]. revert Hexec.
  generalize (@init Data Result) Hinit. clear Hinit.
  induction acts as [|a acts IH]; intros s0 H0 Hexec.
  - cbn in Hexec. by simplify_eq.
  - cbn in Hexec. destruct (sys_step q a s0) as [s1|] eqn:E; [|done].
    cbn in Hexec. eapply IH; [|exact Hexec]. by eapply Hstep.
Qed.

Lemma worker_step_locks q st st' w w' :
  pinned w → (st', w') ∈ worker_step q st w →
  w_locked w' = true ∧ pinned w'.
Proof.
  unfold pinned, worker_step. intros Hp Hin.
  destruct (w_pc w) as [| |j|j r|] eqn:Epc.
  - apply list_elem_of_singleton in Hin as [= -> ->]. done.
  - apply elem_of_app in Hin as [Hin|Hin].
    + destruct (queue st) as [|j rest].
      * destruct (closed st); [|by apply elem_of_nil in Hin].
        apply list_elem_of_singleton in Hin as [= -> ->]. done.
      * apply list_elem_of_singleton in Hin as [= -> ->]. done.
    + destruct (ctxErr st !! ctx q); [|by apply elem_of_nil in Hin].
      apply list_elem_of_singleton in Hin as [= -> ->]. done.
  - destruct (ctxErr st !! job_context j).
    + apply list_elem_of_singleton in Hin as [= -> ->]. done.
    + destruct (handler q _ _).
      apply list_elem_of_singleton in Hin as [= -> ->]. done.
  - destruct (result_send st _ r); [|by apply elem_of_nil in Hin].
    apply list_elem_of_singleton in Hin as [= -> ->]. done.
  - by apply elem_of_nil in Hin.
Qed.

Lemma workers_pinned q s : reachable q s → Forall pinned (sys_workers s).
Proof.
  revert s. apply (reachable_ind q (λ s, Forall pinned (sys_workers s)));
    [constructor|].
  intros a s0 s' IH Hstep. destruct a as [|i n|i n|c d|c e]; cbn in Hstep.
  - destruct (sys_run s0) as [r|]; [|by simplify_eq].
    destruct (run_step q (sys_state s0) r) as [[[st r'] started]|] eqn:Er;
      [|done].
    cbn in Hstep. simplify_eq. cbn. apply Forall_app. split; [done|].
    destruct r; cbn in Er; repeat case_match; simplify_eq;
      repeat constructor.
  - destruct (sys_workers s0 !! i) as [w|] eqn:Ew; [|done]. cbn in Hstep.
    destruct (worker_step q (sys_state s0) w !! n) as [[st w']|] eqn:En;
      [|done].
    cbn in Hstep. simplify_eq. cbn. apply Forall_insert; [done|].
    eapply worker_step_locks.
    + eapply Forall_lookup_1; eauto.
    + eapply list_elem_of_lookup_2; eauto.
  - destruct (sys_procs s0 !! i) as [p|]; [|done]. cbn in Hstep.
    destruct (process_step q (sys_state s0) p !! n) as [[st p']|]; [|done].
    cbn in Hstep. by simplify_eq.
  - by simplify_eq.
  - destruct (ctxErr (sys_state s0) !! c); by simplify_eq.
Qed.

(** C10. A worker's first step, before it can receive any job, is
    [runtime.LockOSThread]; from then on it is bound to its thread at every
    point of its life, and no step it can take leaves it unbound. *)
Theorem worker_pinned_for_life q s i w
    (Hreach : reachable q s) (Hw : sys_workers s !! i = Some w) :
  pinned w ∧
  (w_pc w = WStart →
   w_calls w = [] ∧
   ∀ st, worker_step q st w = [(st, mkWorker WSelect true [])]) ∧
  (∀ st st' w', (st', w') ∈ worker_step q st w → w_locked w' = true).
Proof.
  assert (Hp : pinned w).
  { eapply Forall_lookup_1; [by apply (workers_pinned q)|done]. }
  split; [done|]. split.
  - intros Hpc. unfold pinned in Hp. rewrite Hpc in Hp. split; [done|].
    intros st. unfold worker_step. by rewrite Hpc, Hp.
  - intros st st' w' Hin. by eapply worker_step_locks.
Qed.

(** ** Each result channel is used once *)

Lemma sum_list_with_insert {A} (f : A → nat) (l : list A) (i : nat)
    (x y : A) :
  l !! i = Some x →
  (sum_list_with f (<[i := y]> l) + f x = sum_list_with f l + f y)%nat.
Proof.
  revert i. induction l as [|a l IH]; intros [|i] Hl; simplify_eq/=.
  - lia.
  - specialize (IH i Hl). lia.
Qed.

(** What one channel sees of one worker's step: nothing is gained or
    lost. *)
Lemma worker_step_conserves q st st' w w' (c : rchan) :
  (st', w') ∈ worker_step q st w →
  (sum_list_with (job_on c) (queue st') + worker_holds c w'
   + length (default [] (results st' !! c))
   = sum_list_with (job_on c) (queue st) + worker_holds c w
     + length (default [] (results st !! c)))%nat ∧
  (results st' !! c = None ↔ results st !! c = None).
Proof.
  unfold worker_step, worker_holds. intros Hin.
  destruct (w_pc w) as [| |j|j r|] eqn:Epc.
  - apply list_elem_of_singleton in Hin as [= -> ->]. done.
  - apply elem_of_app in Hin as [Hin|Hin].
    + destruct (queue st) as [|j rest] eqn:Eq.
      * destruct (closed st); [|by apply elem_of_nil in Hin].
        apply list_elem_of_singleton in Hin as [= -> ->]. cbn.
        by rewrite Eq.
      * apply list_elem_of_singleton in Hin as [= -> ->]. cbn.
        split; [lia|done].
    + destruct (ctxErr st !! ctx q); [|by apply elem_of_nil in Hin].
      apply list_elem_of_singleton in Hin as [= -> ->]. done.
  - destruct (ctxErr st !! job_context j).
    + apply list_elem_of_singleton in Hin as [= -> ->]. done.
    + destruct (handler q _ _).
      apply list_elem_of_singleton in Hin as [= -> ->]. done.
  - unfold result_send in Hin.
    destruct (results st !! job_result j) as [buf|] eqn:Eb;
      [|by apply elem_of_nil in Hin].
    case_decide; [|by apply elem_of_nil in Hin].
    apply list_elem_of_singleton in Hin as [= -> ->]. cbn.
    unfold job_on. destruct (decide (job_result j = c)) as [E|Hne].
    + subst c. rewrite lookup_insert_eq, Eb. cbn. rewrite length_app. cbn.
      split; [lia|done].
    + rewrite lookup_insert_ne by done. split; [lia|done].
  - by apply elem_of_nil in Hin.
Qed.

(** What one channel sees of one step of a [Process] call: a claim appears
    only together with the channel itself. *)
Lemma process_step_claims q st st' (p p' : process_pc Data Result)
    (c : rchan) :
  (st', p') ∈ process_step q st p →
  let before := (sum_list_with (job_on c) (queue st) + process_pending c p
                 + length (default [] (results st !! c)))%nat in
  let after := (sum_list_with (job_on c) (queue st') + process_pending c p'
                + length (default [] (results st' !! c)))%nat in
  ((after ≤ before)%nat ∧
   (results st' !! c = None ↔ results st !! c = None)) ∨
  (results st !! c = None ∧ is_Some (results st' !! c) ∧
   after = (before + 1)%nat).
Proof.
  unfold process_step. intros Hin. cbv zeta.
  destruct p as [callerCtx data|j|callerCtx resultChan| |].
  - destruct (ctxErr st !! ctx q).
    + apply list_elem_of_singleton in Hin as [= -> ->]. by left.
    + apply list_elem_of_singleton in Hin as [= -> ->]. cbn.
      pose proof (is_fresh (dom (results st))) as Hfresh.
      apply not_elem_of_dom in Hfresh.
      unfold job_on. cbn.
      destruct (decide (fresh (dom (results st)) = c)) as [<-|Hne].
      * right. rewrite lookup_insert_eq, Hfresh. cbn.
        split; [done|]. split; [eauto|lia].
      * left. rewrite lookup_insert_ne by done. split; [lia|done].
  - left. repeat apply elem_of_app in Hin as [Hin|Hin].
    + destruct (closed st).
      * apply list_elem_of_singleton in Hin as [= -> ->]. cbn.
        split; [lia|done].
      * case_decide; [|by apply elem_of_nil in Hin].
        apply list_elem_of_singleton in Hin as [= -> ->]. cbn.
        rewrite sum_list_with_app. cbn. split; [lia|done].
    + destruct (ctxErr st !! ctx q); [|by apply elem_of_nil in Hin].
      apply list_elem_of_singleton in Hin as [= -> ->]. cbn.
      split; [lia|done].
    + destruct (ctxErr st !! job_context j); [|by apply elem_of_nil in Hin].
      apply list_elem_of_singleton in Hin as [= -> ->]. cbn.
      split; [lia|done].
  - left. apply elem_of_app in Hin as [Hin|Hin].
    + destruct (results st !! resultChan) as [[|r rest]|] eqn:Eb;
        try by apply elem_of_nil in Hin.
      apply list_elem_of_singleton in Hin as [= -> ->].
      destruct (res_err r); cbn;
        (destruct (decide (resultChan = c)) as [E|Hne];
         [subst c; rewrite lookup_insert_eq, Eb; cbn; split; [lia|done]
         |rewrite lookup_insert_ne by done; split; [lia|done]]).
    + destruct (ctxErr st !! callerCtx); [|by apply elem_of_nil in Hin].
      apply list_elem_of_singleton in Hin as [= -> ->]. cbn.
      split; [lia|done].
  - by apply elem_of_nil in Hin.
  - by apply elem_of_nil in Hin.
Qed.

Lemma single_use_step q a s s' :
  single_use s → sys_step q a s = Some s' → single_use s'.
Proof.
  intros Hinv Hstep c. destruct (Hinv c) as [Hle Hnone].
  unfold claims in *.
  destruct a as [|i n|i n|callerCtx d|cc e]; cbn in Hstep.
  - destruct (sys_run s) as [r|]; [|by simplify_eq].
    destruct (run_step q (sys_state s) r) as [[[st r'] started]|] eqn:Er;
      [|done].
    cbn in Hstep. simplify_eq. cbn. rewrite sum_list_with_app.
    assert (sum_list_with (worker_holds c) started = 0%nat ∧
            queue st = queue (sys_state s) ∧
            results st = results (sys_state s)) as (-> & -> & ->).
    { destruct r; cbn in Er; repeat case_match; by simplify_eq. }
    split; [lia|]. intros Hn. specialize (Hnone Hn). lia.
  - destruct (sys_workers s !! i) as [w|] eqn:Ew; [|done]. cbn in Hstep.
    destruct (worker_step q (sys_state s) w !! n) as [[st w']|] eqn:En;
      [|done].
    cbn in Hstep. simplify_eq. cbn.
    apply list_elem_of_lookup_2 in En.
    destruct (worker_step_conserves q _ _ _ _ c En) as [Hc Hdom].
    pose proof (sum_list_with_insert (worker_holds c) _ i w w' Ew) as Hs.
    split; [lia|]. intros Hn. apply Hdom in Hn. specialize (Hnone Hn). lia.
  - destruct (sys_procs s !! i) as [p|] eqn:Ep; [|done]. cbn in Hstep.
    destruct (process_step q (sys_state s) p !! n) as [[st p']|] eqn:En;
      [|done].
    cbn in Hstep. simplify_eq. cbn.
    apply list_elem_of_lookup_2 in En.
    pose proof (sum_list_with_insert (process_pending c) _ i p p' Ep) as Hs.
    destruct (process_step_claims q _ _ _ _ c En)
      as [[Hc Hdom] | (Hn & [buf Hsome] & Hc)]; cbv zeta in Hc.
    + split; [lia|]. intros Hn. apply Hdom in Hn. specialize (Hnone Hn). lia.
    + specialize (Hnone Hn). rewrite Hsome in Hc |- *. cbn in Hc |- *.
      split; [lia|done].
  - simplify_eq. cbn. rewrite sum_list_with_app. cbn.
    split; [lia|]. intros Hn. specialize (Hnone Hn). lia.
  - destruct (ctxErr (sys_state s) !! cc); [done|]. simplify_eq. cbn.
    split; [lia|]. intros Hn. specialize (Hnone Hn). lia.
Qed.

Lemma reachable_single_use q s : reachable q s → single_use s.
Proof.
  revert s. apply (reachable_ind q single_use).
  - intros c. unfold claims. cbn. rewrite lookup_empty. cbn.
    split; [lia|done].
  - intros a s s'. apply single_use_step.
Qed.

Lemma sum_list_with_lookup {A} (f : A → nat) (l : list A) (i : nat) (x : A) :
  l !! i = Some x → (f x ≤ sum_list_with f l)%nat.
Proof.
  revert i. induction l as [|a l IH]; intros [|i] Hl; simplify_eq/=.
  - lia.
  - specialize (IH i Hl). lia.
Qed.

(** In every state the system reaches, a worker about to send finds the
    job's result channel made and empty: its only step is the send. *)
Lemma send_goes_through q s i w j r :
  reachable q s → sys_workers s !! i = Some w → w_pc w = WSend j r →
  results (sys_state s) !! job_result j = Some [] ∧
  worker_step q (sys_state s) w
  = [(set_result_buffer (job_result j) [r] (sys_state s), at_pc WSelect w)].
Proof.
  intros Hreach Hw Hpc.
  destruct (reachable_single_use q s Hreach (job_result j)) as [Hle Hnone].
  pose proof (sum_list_with_lookup (worker_holds (job_result j)) _ i w Hw)
    as Hheld.
  assert (Hone : worker_holds (job_result j) w = 1%nat).
  { unfold worker_holds, job_on. rewrite Hpc. by rewrite decide_True. }
  unfold claims in *.
  assert (Hbuf : results (sys_state s) !! job_result j = Some []).
  { destruct (results (sys_state s) !! job_result j) as [[|r0 buf]|].
    - done.
    - cbn in Hle. lia.
    - specialize (Hnone eq_refl). lia. }
  split; [done|]. unfold worker_step, result_send. by rewrite Hpc, Hbuf.
Qed.

(** C7. A worker that holds a job whose context is already cancelled goes
    on to send that cancellation error and does not invoke the handler;
    otherwise it invokes the handler on the job's context and payload and
    goes on to send exactly what the handler returned; it has no other
    step.  A worker about to send has exactly one step as well, in every
    state the system reaches: the send goes through at once, leaves the
    value alone on the job's own result channel, and puts the worker back
    at its [select] for the next job. *)
Theorem worker_handles_job q s i w j
    (Hreach : reachable q s) (Hw : sys_workers s !! i = Some w) :
  (w_pc w = WGot j →
   match ctxErr (sys_state s) !! job_context j with
   | Some e =>
       worker_step q (sys_state s) w
       = [(sys_state s,
           mkWorker (WSend j (mkJobResult None (Some (ErrContext e))))
                    (w_locked w) (w_calls w))]
   | None =>
       worker_step q (sys_state s) w
       = [(sys_state s,
           mkWorker
             (WSend j (mkJobResult
                         (handler q (job_context j) (job_data j)).1
                         (handler q (job_context j) (job_data j)).2))
             (w_locked w)
             (w_calls w ++ [(job_context j, job_data j)]))]
   end) ∧
  (∀ r, w_pc w = WSend j r →
     results (sys_state s) !! job_result j = Some [] ∧
     worker_step q (sys_state s) w
     = [(set_result_buffer (job_result j) [r] (sys_state s),
         at_pc WSelect w)] ∧
     results (set_result_buffer (job_result j) [r] (sys_state s))
       !! job_result j = Some [r]).
Proof.
  split.
  - intros Hpc. unfold worker_step. rewrite Hpc.
    destruct (ctxErr (sys_state s) !! job_context j); [done|].
    by destruct (handler q (job_context j) (job_data j)).
  - intros r Hpc.
    destruct (send_goes_through q s i w j r Hreach Hw Hpc) as [Hbuf Hstep].
    split; [done|]. split; [done|]. cbn. by rewrite lookup_insert_eq.
Qed.


Lemma in_singleton_pair {A B} (a a' : A) (b b' : B) :
  (a', b') ∈ [(a, b)] → a' = a ∧ b' = b.
Proof. by intros [= -> ->]%list_elem_of_singleton. Qed.

(** C1 fails.  With the intake buffer full and the channel open, the first
    [select] of [Process] has no ready arm while both contexts are live: the
    call blocks.  Whatever error the submission path returns, then or
    later, is the shutdown error or the caller's cancellation error, never
    [ErrQueueFull]. *)
Theorem Process_blocks_on_full_intake q st j
    (Hfull : length (queue st) = queue_cap q) (Hopen : closed st = false) :
  (ctxErr st !! ctx q = None → ctxErr st !! job_context j = None →
   process_step q st (PSend j) = []) ∧
  (∀ st' p', (st', p') ∈ process_step q st (PSend j) →
     st' = st ∧
     ∃ e, p' = PReturn None (Some e) ∧ errors_Is_QueueFull e = false ∧
          (e = shutdown_error ∨ ∃ ce, e = ErrContext ce)).
Proof.
  unfold process_step. rewrite Hopen, Hfull.
  destruct (decide (queue_cap q < queue_cap q)%nat) as [?|_]; [lia|].
  split.
  - by intros -> ->.
  - intros st' p' Hin. cbn in Hin. apply elem_of_app in Hin as [Hin|Hin].
    + destruct (ctxErr st !! ctx q); [|by apply elem_of_nil in Hin].
      apply in_singleton_pair in Hin as [-> ->]. split; [done|].
      exists shutdown_error. eauto.
    + destruct (ctxErr st !! job_context j) as [ce|];
        [|by apply elem_of_nil in Hin].
      apply in_singleton_pair in Hin as [-> ->]. split; [done|].
      exists (ErrContext ce). eauto.
Qed.

End Facts.

Lemma worker_handles_job_witness :
  let j := mkJob 7%nat 0%nat 1%nat in
  ∃ s s1 s2 w w1 w2,
    sys_exec q1 (take 8 abandon_run) init = Some s ∧
    sys_workers s !! 0%nat = Some w ∧
    worker_step q1 (sys_state s) w
    = [(sys_state s,
        mkWorker (WSend j (mkJobResult (Some 7%nat) None)) true
                 [(1%nat, 7%nat)])] ∧
    sys_exec q1 cancelled_job_run init = Some s1 ∧
    sys_workers s1 !! 0%nat = Some w1 ∧
    worker_step q1 (sys_state s1) w1
    = [(sys_state s1,
        mkWorker (WSend j (mkJobResult None (Some (ErrContext Canceled))))
                 true [])] ∧
    sys_exec q1 (take 9 abandon_run) init = Some s2 ∧
    sys_workers s2 !! 0%nat = Some w2 ∧
    worker_step q1 (sys_state s2) w2
    = [(set_result_buffer 0%nat [mkJobResult (Some 7%nat) None]
                          (sys_state s2),
        at_pc WSelect w2)].
Proof.
  cbv zeta. eexists _, _, _, _, _, _.
  split; [vm_compute; reflexivity|].
  match goal with
  | |- sys_workers ?s !! _ = Some ?w ∧ _ => set (st := s); set (wk := w)
  end.
  split; [vm_compute; reflexivity|].
  assert (Hr : reachable q1 st).
  { exists (take 8 abandon_run). vm_compute. reflexivity. }
  assert (Hw : sys_workers st !! 0%nat = Some wk) by reflexivity.
  split.
  { exact (proj1 (worker_handles_job q1 st 0%nat wk
                    (mkJob 7%nat 0%nat 1%nat) Hr Hw) eq_refl). }
  split; [vm_compute; reflexivity|].
  match goal with
  | |- sys_workers ?s !! _ = Some ?w ∧ _ => set (st1 := s); set (wk1 := w)
  end.
  split; [vm_compute; reflexivity|].
  assert (Hr1 : reachable q1 st1).
  { exists cancelled_job_run. vm_compute. reflexivity. }
  assert (Hw1 : sys_workers st1 !! 0%nat = Some wk1) by reflexivity.
  split.
  { exact (proj1 (worker_handles_job q1 st1 0%nat wk1
                    (mkJob 7%nat 0%nat 1%nat) Hr1 Hw1) eq_refl). }
  split; [vm_compute; reflexivity|].
  match goal with
  | |- sys_workers ?s !! _ = Some ?w ∧ _ => set (st2 := s); set (wk2 := w)
  end.
  split; [vm_compute; reflexivity|].
  assert (Hr2 : reachable q1 st2).
  { exists (take 9 abandon_run). vm_compute. reflexivity. }
  assert (Hw2 : sys_workers st2 !! 0%nat = Some wk2) by reflexivity.
  exact (proj1 (proj2 (proj2 (worker_handles_job q1 st2 0%nat wk2
                                (mkJob 7%nat 0%nat 1%nat) Hr2 Hw2)
                             (mkJobResult (Some 7%nat) None) eq_refl))).
Defined.

Lemma worker_pinned_for_life_witness :
  ∃ s w, sys_exec q1 (take 7 exit_run) init = Some s ∧
         sys_workers s !! 0%nat = Some w ∧
         w_pc w = WSelect ∧ w_locked w = true.
Proof.
  eexists _, _. split; [vm_compute; reflexivity|]. split; [reflexivity|].
  split; [reflexivity|].
  match goal with
  | |- w_locked ?w = true =>
      exact (proj1 (worker_pinned_for_life q1 _ 0%nat w
                      (ex_intro _ (take 7 exit_run) eq_refl) eq_refl))
  end.
Defined.


Lemma Process_blocks_on_full_intake_witness :
  ∃ s, New 0%nat 1 echo = Some q1 ∧
       sys_exec q1 fill_run init = Some s ∧
       length (queue (sys_state s)) = 4%nat ∧
       sys_workers s = [] ∧
       sys_procs s !! 4%nat = Some (PSend (mkJob 14%nat 4%nat 1%nat)) ∧
       process_step q1 (sys_state s) (PSend (mkJob 14%nat 4%nat 1%nat)) = [].
Proof.
  eexists. split; [reflexivity|]. split; [vm_compute; reflexivity|].
  split; [reflexivity|]. split; [reflexivity|]. split; [reflexivity|].
  match goal with
  | |- process_step q1 ?st (PSend ?j) = [] =>
      exact (proj1 (Process_blocks_on_full_intake q1 st j eq_refl eq_refl)
                   eq_refl eq_refl)
  end.
Defined.

Section Shutdown.
Context {Data Result : Type}.
Implicit Types (q : Queue Data Result) (s : system Data Result)
               (st : state Data Result) (w : worker Data Result)
               (j : job Data) (r : jobResult Result).

(** C6 (amended). Once the parent cancellation has fired, a call to
    [Process] returns the shutdown error at once and enqueues nothing;
    [Run] moves on and closes the intake channel; and a worker at its
    [select] may return at once on the cancellation arm, whatever the
    intake queue holds.  A worker returns only from its [select], and only
    on that arm or on finding the intake channel closed and empty. *)
Theorem shutdown_refuses_closes_and_releases q st (e : ctx_error)
    (Hfired : ctxErr st !! ctx q = Some e) :
  (∀ callerCtx data,
     process_step q st (PStart callerCtx data)
     = [(st, PReturn None (Some shutdown_error))]) ∧
  run_step q st RWait = Some (st, RClose, []) ∧
  (closed st = false → run_step q st RClose = Some (set_closed st, RDone, [])) ∧
  (∀ w, w_pc w = WSelect → (st, at_pc WExit w) ∈ worker_step q st w) ∧
  (∀ st0 st' w w',
     (st', w') ∈ worker_step q st0 w → w_pc w' = WExit →
     w_pc w = WSelect ∧ st' = st0 ∧
     (is_Some (ctxErr st0 !! ctx q) ∨
      (closed st0 = true ∧ queue st0 = []))).
Proof.
  split; [|split; [|split; [|split]]].
  - intros callerCtx data. unfold process_step. by rewrite Hfired.
  - unfold run_step. by rewrite Hfired.
  - intros Hopen. unfold run_step. by rewrite Hopen.
  - intros w Hpc. unfold worker_step. rewrite Hpc, Hfired.
    apply elem_of_app. right. by apply list_elem_of_singleton.
  - intros st0 st' w w' Hin Hexit. unfold worker_step in Hin.
    destruct (w_pc w) as [| |j|j r|] eqn:Epc.
    + apply in_singleton_pair in Hin as [-> ->]. done.
    + split; [done|]. apply elem_of_app in Hin as [Hin|Hin].
      * destruct (queue st0) as [|j rest] eqn:Eq.
        -- destruct (closed st0) eqn:Ec; [|by apply elem_of_nil in Hin].
           apply in_singleton_pair in Hin as [-> ->]. eauto.
        -- apply in_singleton_pair in Hin as [-> ->]. done.
      * destruct (ctxErr st0 !! ctx q) eqn:Ee; [|by apply elem_of_nil in Hin].
        apply in_singleton_pair in Hin as [-> ->]. eauto.
    + destruct (ctxErr st0 !! job_context j).
      * apply in_singleton_pair in Hin as [-> ->]. done.
      * destruct (handler q _ _).
        apply in_singleton_pair in Hin as [-> ->]. done.
    + destruct (result_send st0 _ r); [|by apply elem_of_nil in Hin].
      apply in_singleton_pair in Hin as [-> ->]. done.
    + by apply elem_of_nil in Hin.
Qed.

End Shutdown.

(** C6, as the specification states it, fails: after shutdown has fired the
    only worker returns while a job is still enqueued. *)
Lemma worker_exits_with_job_enqueued :
  ∃ s, sys_exec q1 exit_run init = Some s ∧
       ctxErr (sys_state s) !! ctx q1 = Some Canceled ∧
       sys_workers s = [mkWorker WExit true []] ∧
       queue (sys_state s) = [mkJob 7%nat 0%nat 1%nat] ∧
       ¬ exits_only_when_drained q1.
Proof.
  eexists. split; [vm_compute; reflexivity|].
  split; [vm_compute; reflexivity|]. split; [reflexivity|].
  split; [reflexivity|].
  intros Hdrain.
  set (st := mkState [mkJob 7%nat 0%nat 1%nat] false
                     (∅ : gmap rchan (list (jobResult nat)))
                     ({[0%nat := Canceled]} : gmap context ctx_error)).
  set (w := mkWorker (Data := nat) (Result := nat) WSelect true []).
  assert (Hin : (st, at_pc WExit w) ∈ worker_step q1 st w).
  { vm_compute. apply list_elem_of_In. right. by left. }
  specialize (Hdrain st st w (at_pc WExit w) Hin eq_refl). discriminate Hdrain.
Qed.

Lemma shutdown_refuses_closes_and_releases_witness :
  ∃ s, sys_exec q1 (take 8 exit_run) init = Some s ∧
       ctxErr (sys_state s) !! ctx q1 = Some Canceled ∧
       process_step q1 (sys_state s) (PStart 2%nat 9%nat)
       = [(sys_state s, PReturn None (Some shutdown_error))] ∧
       run_step q1 (sys_state s) RWait = Some (sys_state s, RClose, []).
Proof.
  eexists. split; [vm_compute; reflexivity|].
  match goal with
  | |- ctxErr ?st !! _ = _ ∧ _ =>
      assert (Hf : ctxErr st !! ctx q1 = Some Canceled)
        by (vm_compute; reflexivity);
      pose proof (shutdown_refuses_closes_and_releases q1 st Canceled Hf)
        as (Hp & Hr & _)
  end.
  split; [exact Hf|]. split; [apply Hp|exact Hr].
Defined.

End QueueFacts.

(* ===================================================================== *)
(** * The request log *)
(* ===================================================================== *)

Module HandlerFacts.
Import Go Handler.

Example Logger_client_gone :
  Logger 503 (Some Canceled) = (Info, "Request cancelled by client").
Proof. reflexivity. Qed.

Example Logger_timeout :
  Logger 503 (Some DeadlineExceeded) = (Error, "Request timeout").
Proof. reflexivity. Qed.

Example Logger_queue_full : Logger 503 None = (Error, "Request completed").
Proof. reflexivity. Qed.

(** C9. The request log is written at [Info] for a 503 whose context
    reports [context.Canceled], at [Error] for a 503 whose context reports
    [context.DeadlineExceeded], at [Error] for every other status of 500 or
    above, and at [Debug] for everything else. *)
Theorem Logger_severity (code : Z) (ctxErr : option ctx_error) :
  (code = 503 → ctxErr = Some Canceled → (Logger code ctxErr).1 = Info) ∧
  (code = 503 → ctxErr = Some DeadlineExceeded →
   (Logger code ctxErr).1 = Error) ∧
  (500 ≤ code →
   ¬ (code = 503 ∧
      (ctxErr = Some Canceled ∨ ctxErr = Some DeadlineExceeded)) →
   (Logger code ctxErr).1 = Error) ∧
  (code < 500 → (Logger code ctxErr).1 = Debug).
Proof.
  unfold Logger, StatusServiceUnavailable.
  repeat split.
  - intros -> ->. reflexivity.
  - intros -> ->. reflexivity.
  - intros Hge Hnot.
    destruct (code =? 503) eqn:E503; cbn.
    + apply Z.eqb_eq in E503.
      rewrite !bool_decide_eq_false_2 by (intros ->; apply Hnot; auto).
      assert ((code >=? 500) = true) as -> by lia. reflexivity.
    + assert ((code >=? 500) = true) as -> by lia. reflexivity.
  - intros Hlt.
    assert ((code =? 503) = false) as -> by lia. cbn.
    assert ((code >=? 500) = false) as -> by lia. reflexivity.
Qed.

Lemma Logger_severity_witness :
  (Logger 503 (Some Canceled)).1 = Info ∧
  (Logger 503 (Some DeadlineExceeded)).1 = Error ∧
  (Logger 500 (Some Canceled)).1 = Error ∧
  (Logger 200 None).1 = Debug.
Proof.
  destruct (Logger_severity 503 (Some Canceled)) as (H1 & _).
  destruct (Logger_severity 503 (Some DeadlineExceeded)) as (_ & H2 & _).
  destruct (Logger_severity 500 (Some Canceled)) as (_ & _ & H3 & _).
  destruct (Logger_severity 200 None) as (_ & _ & _ & H4).
  split; [|split; [|split]].
  - apply H1; reflexivity.
  - apply H2; reflexivity.
  - apply H3; [lia|]. intros [? _]. lia.
  - apply H4. lia.
Defined.

End HandlerFacts.

(* ===================================================================== *)
(** * More on the worker queue *)
(* ===================================================================== *)

Module QueueMoreFacts.
Import Go Queue QueueFacts.

Section More.
Context {Data Result : Type}.
Implicit Types (q : Queue Data Result) (s : system Data Result)
               (st : state Data Result) (w : worker Data Result)
               (j : job Data) (r : jobResult Result)
               (p : process_pc Data Result).

Lemma wrap_int_small (z : Z) : - 2 ^ 63 ≤ z < 2 ^ 63 → wrap_int z = z.
Proof. intros H. unfold wrap_int. rewrite Z.mod_small by lia. lia. Qed.

(** X1. For a worker count between -2^61 and 2^61, where [workers*4] does
    not wrap around: [New] builds no queue when the count is negative or so
    large that the buffer of four jobs per worker is beyond what the runtime
    lets a channel hold ([make] panics), and whenever it does build a queue
    the count is not negative and the intake channel has room for exactly
    four jobs per worker. *)
Theorem New_capacity (c : context) (n : Z)
    (h : context → Data → option Result * option error)
    (Hn : - 2 ^ 61 ≤ n < 2 ^ 61) :
  (n < 0 → New c n h = None) ∧
  (maxAlloc - hchanSize < job_size * (4 * n) → New c n h = None) ∧
  (∀ q, New c n h = Some q →
        0 ≤ n ∧ q = mkQueue n (4 * Z.to_nat n)%nat h c).
Proof.
  unfold New, makechan. rewrite wrap_int_small by lia.
  split; [|split].
  - intros Hneg. destruct (n * 4 <? 0) eqn:E; [done|lia].
  - intros Hbig.
    destruct (maxAlloc - hchanSize <? job_size * (n * 4)) eqn:E; [|lia].
    by rewrite orb_true_r.
  - intros q Hq.
    destruct (n * 4 <? 0) eqn:E1; [done|].
    destruct (maxAlloc - hchanSize <? job_size * (n * 4)) eqn:E2; [done|].
    cbn in Hq. injection Hq as <-. split; [lia|].
    by replace (Z.to_nat (n * 4)) with (4 * Z.to_nat n)%nat by lia.
Qed.
(** Steps of a worker never add to the intake buffer. *)
Lemma worker_step_queue q st st' w w' :
  (st', w') ∈ worker_step q st w →
  (length (queue st') ≤ length (queue st))%nat ∧ closed st' = closed st ∧
  ctxErr st' = ctxErr st.
Proof.
  unfold worker_step. intros Hin.
  destruct (w_pc w) as [| |j|j r|].
  - by apply in_singleton_pair in Hin as [-> ->].
  - apply elem_of_app in Hin as [Hin|Hin].
    + destruct (queue st) as [|j rest] eqn:Eq.
      * destruct (closed st) eqn:Ec; [|by apply elem_of_nil in Hin].
        apply in_singleton_pair in Hin as [-> ->]. by rewrite Eq, Ec.
      * apply in_singleton_pair in Hin as [-> ->]. cbn. split; [lia|done].
    + destruct (ctxErr st !! ctx q); [|by apply elem_of_nil in Hin].
      by apply in_singleton_pair in Hin as [-> ->].
  - destruct (ctxErr st !! job_context j).
    + by apply in_singleton_pair in Hin as [-> ->].
    + destruct (handler q _ _).
      by apply in_singleton_pair in Hin as [-> ->].
  - unfold result_send in Hin.
    destruct (results st !! job_result j); [|by apply elem_of_nil in Hin].
    case_decide; [|by apply elem_of_nil in Hin].
    by apply in_singleton_pair in Hin as [-> ->].
  - by apply elem_of_nil in Hin.
Qed.

(** A step of [Process] adds to the intake buffer only where there is
    room, and neither closes the channel nor cancels a context. *)
Lemma process_step_queue q st st' p p' :
  (st', p') ∈ process_step q st p →
  (length (queue st) ≤ queue_cap q → length (queue st') ≤ queue_cap q)%nat ∧
  closed st' = closed st ∧ ctxErr st' = ctxErr st.
Proof.
  unfold process_step. intros Hin.
  destruct p as [callerCtx data|j|callerCtx resultChan| |].
  - destruct (ctxErr st !! ctx q);
      by apply in_singleton_pair in Hin as [-> ->].
  - repeat apply elem_of_app in Hin as [Hin|Hin].
    + destruct (closed st) eqn:Ec.
      * apply in_singleton_pair in Hin as [-> ->]. by rewrite Ec.
      * case_decide; [|by apply elem_of_nil in Hin].
        apply in_singleton_pair in Hin as [-> ->]. cbn.
        rewrite length_app. cbn. split; [lia|done].
    + destruct (ctxErr st !! ctx q); [|by apply elem_of_nil in Hin].
      by apply in_singleton_pair in Hin as [-> ->].
    + destruct (ctxErr st !! job_context j); [|by apply elem_of_nil in Hin].
      by apply in_singleton_pair in Hin as [-> ->].
  - apply elem_of_app in Hin as [Hin|Hin].
    + destruct (results st !! resultChan) as [[|r rest]|];
        try by apply elem_of_nil in Hin.
      by apply in_singleton_pair in Hin as [-> ->].
    + destruct (ctxErr st !! callerCtx); [|by apply elem_of_nil in Hin].
      by apply in_singleton_pair in Hin as [-> ->].
  - by apply elem_of_nil in Hin.
  - by apply elem_of_nil in Hin.
Qed.

(** The steps of the system, by who takes them. *)
Lemma sys_step_cases q a s s' :
  sys_step q a s = Some s' →
  (a = ActRun ∧ sys_run s = None ∧
   s' = mkSystem (sys_state s) (Some (RSpawn 0)) (sys_workers s)
                 (sys_procs s)) ∨
  (∃ (pc pc' : run_pc) st started,
     a = ActRun ∧ sys_run s = Some pc ∧
     run_step q (sys_state s) pc = Some (st, pc', started) ∧
     s' = mkSystem st (Some pc') (sys_workers s ++ started) (sys_procs s)) ∨
  (∃ i w st w',
     sys_workers s !! i = Some w ∧
     (st, w') ∈ worker_step q (sys_state s) w ∧
     s' = mkSystem st (sys_run s) (<[i := w']> (sys_workers s))
                   (sys_procs s)) ∨
  (∃ i p st p',
     sys_procs s !! i = Some p ∧
     (st, p') ∈ process_step q (sys_state s) p ∧
     s' = mkSystem st (sys_run s) (sys_workers s)
                   (<[i := p']> (sys_procs s))) ∨
  (∃ callerCtx data,
     s' = mkSystem (sys_state s) (sys_run s) (sys_workers s)
                   (sys_procs s ++ [PStart callerCtx data])) ∨
  (∃ c e,
     ctxErr (sys_state s) !! c = None ∧
     s' = mkSystem (set_cancelled c e (sys_state s)) (sys_run s)
                   (sys_workers s) (sys_procs s)).
Proof.
  intros Hstep. destruct a as [|i n|i n|callerCtx d|cc e]; cbn in Hstep.
  - destruct (sys_run s) as [pc|] eqn:Er.
    + destruct (run_step q (sys_state s) pc) as [[[st pc'] started]|] eqn:E;
        [|done].
      cbn in Hstep. simplify_eq. right. left. by exists pc, pc', st, started.
    + simplify_eq. by left.
  - destruct (sys_workers s !! i) as [w|] eqn:Ew; [|done]. cbn in Hstep.
    destruct (worker_step q (sys_state s) w !! n) as [[st w']|] eqn:En;
      [|done].
    cbn in Hstep. simplify_eq. apply list_elem_of_lookup_2 in En.
    do 2 right. left. by exists i, w, st, w'.
  - destruct (sys_procs s !! i) as [p|] eqn:Ep; [|done]. cbn in Hstep.
    destruct (process_step q (sys_state s) p !! n) as [[st p']|] eqn:En;
      [|done].
    cbn in Hstep. simplify_eq. apply list_elem_of_lookup_2 in En.
    do 3 right. left. by exists i, p, st, p'.
  - simplify_eq. do 4 right. left. by exists callerCtx, d.
  - destruct (ctxErr (sys_state s) !! cc) eqn:Ec; [done|]. simplify_eq.
    do 5 right. by exists cc, e.
Qed.

(** What one step of [Run] does. *)
Lemma run_step_cases q st st' (pc pc' : run_pc)
    (started : list (worker Data Result)) :
  run_step q st pc = Some (st', pc', started) →
  (∃ i, pc = RSpawn i ∧ i < workers q ∧ st' = st ∧
        pc' = RSpawn (wrap_int (i + 1)) ∧
        started = [mkWorker WStart false []]) ∨
  (∃ i, pc = RSpawn i ∧ workers q ≤ i ∧ st' = st ∧ pc' = RWait ∧
        started = []) ∨
  (pc = RWait ∧ is_Some (ctxErr st !! ctx q) ∧ st' = st ∧ pc' = RClose ∧
   started = []) ∨
  (pc = RClose ∧ closed st = true ∧ st' = st ∧ pc' = RPanic ∧
   started = []) ∨
  (pc = RClose ∧ closed st = false ∧ st' = set_closed st ∧ pc' = RDone ∧
   started = []).
Proof.
  intros H. destruct pc as [i| | | |]; cbn in H.
  - destruct (i <? workers q) eqn:E; simplify_eq.
    + left. exists i. repeat split; lia.
    + right. left. exists i. repeat split; lia.
  - destruct (ctxErr st !! ctx q) eqn:E; simplify_eq.
    do 2 right. left. repeat split; eauto.
  - destruct (closed st) eqn:E; simplify_eq.
    + do 3 right. left. done.
    + do 4 right. done.
  - done.
  - done.
Qed.

Lemma worker_step_in q st st' w w' :
  (st', w') ∈ worker_step q st w →
  closed st' = closed st ∧ ctxErr st' = ctxErr st.
Proof. intros H. by apply worker_step_queue in H as (_ & ? & ?). Qed.

Lemma process_step_in q st st' p p' :
  (st', p') ∈ process_step q st p →
  closed st' = closed st ∧ ctxErr st' = ctxErr st.
Proof. intros H. by apply process_step_queue in H as (_ & ? & ?). Qed.

Lemma pool_size q s (Hint : workers q < 2 ^ 63) :
  reachable q s →
  match sys_run s with
  | None => length (sys_workers s) = 0%nat
  | Some (RSpawn i) =>
      0 ≤ i ≤ Z.max 0 (workers q) ∧ length (sys_workers s) = Z.to_nat i
  | Some _ => length (sys_workers s) = Z.to_nat (workers q)
  end.
Proof.
  revert s. apply (reachable_ind q (λ s,
    match sys_run s with
    | None => length (sys_workers s) = 0%nat
    | Some (RSpawn i) =>
        0 ≤ i ≤ Z.max 0 (workers q) ∧ length (sys_workers s) = Z.to_nat i
    | Some _ => length (sys_workers s) = Z.to_nat (workers q)
    end)); [done|].
  intros a s s' IH Hstep.
  apply sys_step_cases in Hstep
    as [(-> & Er & ->) | [(pc & pc' & st & started & -> & Er & Hrun & ->)
       | [(i & w & st & w' & Ew & Hin & ->) | [(i & p & st & p' & Ep & Hin & ->)
       | [(callerCtx & d & ->) | (c & e & Ec & ->)]]]]]; cbn.
  - rewrite Er in IH. split; [lia|]. by rewrite IH.
  - rewrite length_app. rewrite Er in IH.
    apply run_step_cases in Hrun
      as [(i & -> & Hi & -> & -> & ->) | [(i & -> & Hi & -> & -> & ->)
         | [(-> & _ & -> & -> & ->) | [(-> & Hc & -> & -> & ->)
         | (-> & Hc & -> & -> & ->)]]]]; cbn.
    + rewrite wrap_int_small by lia. lia.
    + lia.
    + lia.
    + lia.
    + lia.
  - rewrite length_insert. done.
  - done.
  - done.
  - done.
Qed.

(** X3. [Run] starts exactly [workers] workers, one per turn of its loop,
    before it waits for shutdown; the pool never grows beyond that and
    never shrinks. *)
Theorem Run_starts_all_workers q s
    (Hint : workers q < 2 ^ 63) (Hreach : reachable q s) :
  (length (sys_workers s) ≤ Z.to_nat (workers q))%nat ∧
  (∀ i, sys_run s = Some (RSpawn i) →
        length (sys_workers s) = Z.to_nat i) ∧
  (sys_run s = Some RWait ∨ sys_run s = Some RClose ∨
   sys_run s = Some RDone →
   length (sys_workers s) = Z.to_nat (workers q)).
Proof.
  pose proof (pool_size q s Hint Hreach) as H.
  destruct (sys_run s) as [[i| | | |]|]; repeat split;
    try lia; try (intros ? [= <-]; lia); try done;
    try (intros [?|[?|?]]; done).
Qed.

(** [Run] comes to its close, and the channel gets closed, only with the
    queue's context cancelled. *)
Lemma close_follows_cancel q s :
  reachable q s →
  (closed (sys_state s) = true →
   sys_run s = Some RDone ∧ is_Some (ctxErr (sys_state s) !! ctx q)) ∧
  (sys_run s = Some RClose → is_Some (ctxErr (sys_state s) !! ctx q)).
Proof.
  revert s. apply (reachable_ind q (λ s,
    (closed (sys_state s) = true →
     sys_run s = Some RDone ∧ is_Some (ctxErr (sys_state s) !! ctx q)) ∧
    (sys_run s = Some RClose → is_Some (ctxErr (sys_state s) !! ctx q))));
    [done|].
  intros a s s' (Hcl & Hrc) Hstep.
  apply sys_step_cases in Hstep
    as [(-> & Er & ->) | [(pc & pc' & st & started & -> & Er & Hrun & ->)
       | [(i & w & st & w' & Ew & Hin & ->) | [(i & p & st & p' & Ep & Hin & ->)
       | [(callerCtx & d & ->) | (c & e & Ec & ->)]]]]]; cbn.
  - split; [|done]. intros Hc.
    destruct (Hcl Hc) as [? _]. congruence.
  - apply run_step_cases in Hrun
      as [(i & -> & Hi & -> & -> & ->) | [(i & -> & Hi & -> & -> & ->)
         | [(-> & Hs & -> & -> & ->) | [(-> & Hc & -> & -> & ->)
         | (-> & Hc & -> & -> & ->)]]]].
    + split; [|done]. intros Hc.
      destruct (Hcl Hc) as [? _]. congruence.
    + split; [|done]. intros Hc.
      destruct (Hcl Hc) as [? _]. congruence.
    + split; [|done]. intros Hc.
      destruct (Hcl Hc) as [? _]. congruence.
    + destruct (Hcl Hc) as [? _]. congruence.
    + cbn. split; [|done]. intros _. split; [done|].
      by apply Hrc.
  - apply worker_step_in in Hin as [-> ->]. done.
  - apply process_step_in in Hin as [-> ->]. done.
  - done.
  - assert (Hmono : is_Some (ctxErr (sys_state s) !! ctx q) →
                    is_Some (<[c := e]> (ctxErr (sys_state s)) !! ctx q)).
    { intros [x Hx]. destruct (decide (c = ctx q)) as [->|Hne].
      - rewrite lookup_insert_eq. eauto.
      - rewrite lookup_insert_ne by done. eauto. }
    split.
    + intros Hc. destruct (Hcl Hc) as [? ?]. auto.
    + intros Hr. auto.
Qed.

(** X4. The intake channel is closed only by the last statement of [Run]
    and only after the queue's context was cancelled: whenever the channel
    is closed, [Run] has gone through its close and the parent context is
    cancelled; [Run] stands at its close only with that context cancelled;
    and the step that closes the channel is a step of [Run] at its close,
    never one of a worker or of a [Process] call. *)
Theorem closed_only_after_shutdown q s (Hreach : reachable q s) :
  (closed (sys_state s) = true →
   sys_run s = Some RDone ∧ is_Some (ctxErr (sys_state s) !! ctx q)) ∧
  (sys_run s = Some RClose → is_Some (ctxErr (sys_state s) !! ctx q)) ∧
  (∀ a s', sys_step q a s = Some s' →
           closed (sys_state s') = true → closed (sys_state s) = false →
           a = ActRun ∧ sys_run s = Some RClose).
Proof.
  destruct (close_follows_cancel q s Hreach) as [Hcl Hrc].
  split; [done|]. split; [done|].
  intros a s' Hstep Hc' Hc.
  pose proof Hstep as Hcases.
  apply sys_step_cases in Hcases
    as [(-> & Er & ->) | [(pc & pc' & st & started & -> & Er & Hrun & ->)
       | [(i & w & st & w' & Ew & Hin & ->) | [(i & p & st & p' & Ep & Hin & ->)
       | [(callerCtx & d & ->) | (c & e & Ec & ->)]]]]]; cbn in Hc'.
  - congruence.
  - split; [done|].
    apply run_step_cases in Hrun
      as [(i & -> & Hi & -> & -> & ->) | [(i & -> & Hi & -> & -> & ->)
         | [(-> & Hs & -> & -> & ->) | [(-> & Hx & -> & -> & ->)
         | (-> & Hx & -> & -> & ->)]]]]; congruence.
  - apply worker_step_in in Hin as [Hin _]. congruence.
  - apply process_step_in in Hin as [Hin _]. congruence.
  - congruence.
  - cbn in Hc'. congruence.
Qed.
(** A [Process] call that has returned an error holds no result. *)
Lemma process_step_error_result q st st' p res (e : error) :
  (st', PReturn res (Some e)) ∈ process_step q st p → res = None.
Proof.
  unfold process_step. intros Hin.
  destruct p as [callerCtx data|j|callerCtx resultChan| |].
  - destruct (ctxErr st !! ctx q);
      apply in_singleton_pair in Hin as [_ Hp]; by simplify_eq.
  - repeat apply elem_of_app in Hin as [Hin|Hin].
    + destruct (closed st).
      * apply in_singleton_pair in Hin as [_ Hp]. done.
      * case_decide; [|by apply elem_of_nil in Hin].
        apply in_singleton_pair in Hin as [_ Hp]. done.
    + destruct (ctxErr st !! ctx q); [|by apply elem_of_nil in Hin].
      apply in_singleton_pair in Hin as [_ Hp]. by simplify_eq.
    + destruct (ctxErr st !! job_context j); [|by apply elem_of_nil in Hin].
      apply in_singleton_pair in Hin as [_ Hp]. by simplify_eq.
  - apply elem_of_app in Hin as [Hin|Hin].
    + destruct (results st !! resultChan) as [[|r rest]|];
        try by apply elem_of_nil in Hin.
      apply in_singleton_pair in Hin as [_ Hp].
      destruct (res_err r); by simplify_eq.
    + destruct (ctxErr st !! callerCtx); [|by apply elem_of_nil in Hin].
      apply in_singleton_pair in Hin as [_ Hp]. by simplify_eq.
  - by apply elem_of_nil in Hin.
  - by apply elem_of_nil in Hin.
Qed.

(** X5. [Process] never returns a result together with an error: whenever
    a call has returned a non-nil error its result is nil, also when the
    handler itself returned both. *)
Theorem Process_error_has_nil_result q s i res (e : error)
    (Hreach : reachable q s)
    (Hret : sys_procs s !! i = Some (PReturn res (Some e))) :
  res = None.
Proof.
  revert s Hreach i res e Hret. apply (reachable_ind q (λ s,
    ∀ i res e, sys_procs s !! i = Some (PReturn res (Some e)) →
               res = None)); [done|].
  intros a s s' IH Hstep k res e Hret.
  apply sys_step_cases in Hstep
    as [(-> & Er & ->) | [(pc & pc' & st & started & -> & Er & Hrun & ->)
       | [(i & w & st & w' & Ew & Hin & ->) | [(i & p & st & p' & Ep & Hin & ->)
       | [(callerCtx & d & ->) | (c & e' & Ec & ->)]]]]]; cbn in Hret;
    eauto.
  - destruct (decide (i = k)) as [->|Hne].
    + rewrite list_lookup_insert_eq in Hret by (by eapply lookup_lt_Some).
      simplify_eq. by eapply process_step_error_result.
    + rewrite list_lookup_insert_ne in Hret by done. eauto.
  - apply lookup_app_Some in Hret as [Hret|[_ Hret]]; [eauto|].
    by apply list_lookup_singleton_Some in Hret as [_ ?].
Qed.

(** X6. Once [Run] has closed the intake channel, a call at its first
    [select] never enqueues its job and does not hang.  Every step it can
    take leaves the intake buffer and the rest of the shared state as they
    are and ends the call: with a nil result and the shutdown error or the
    caller's cancellation error, or with the panic of a send on a closed
    channel.  A step that returns an error is always there. *)
Theorem closed_intake_takes_no_job q s i j
    (Hreach : reachable q s)
    (Hsend : sys_procs s !! i = Some (PSend j))
    (Hclosed : closed (sys_state s) = true) :
  (∀ n s', sys_step q (ActProcess i n) s = Some s' →
     sys_state s' = sys_state s ∧
     (sys_procs s' !! i = Some PPanic ∨
      ∃ e, sys_procs s' !! i = Some (PReturn None (Some e)) ∧
           (e = shutdown_error ∨ ∃ ce, e = ErrContext ce))) ∧
  (∃ n s' e, sys_step q (ActProcess i n) s = Some s' ∧
             sys_procs s' !! i = Some (PReturn None (Some e))).
Proof.
  destruct (close_follows_cancel q s Hreach) as [Hcl _].
  destruct (Hcl Hclosed) as [_ [e0 He0]].
  assert (Hlt : (i < length (sys_procs s))%nat) by by eapply lookup_lt_Some.
  split.
  - intros n s' Hstep. cbn in Hstep. rewrite Hsend in Hstep. cbn in Hstep.
    rewrite Hclosed, He0 in Hstep.
    destruct (_ !! n) as [[st p']|] eqn:En; [|done].
    cbn in Hstep. injection Hstep as <-. cbn.
    rewrite list_lookup_insert_eq by done.
    apply list_elem_of_lookup_2 in En.
    apply elem_of_cons in En as [En|En].
    { simplify_eq. split; [done|]. by left. }
    apply elem_of_cons in En as [En|En].
    { simplify_eq. split; [done|]. right. eauto. }
    destruct (ctxErr (sys_state s) !! job_context j) as [ce|];
      [|by apply elem_of_nil in En].
    apply in_singleton_pair in En as [-> ->]. split; [done|]. right.
    eauto.
  - exists 1%nat. eexists. exists shutdown_error. split.
    + cbn. rewrite Hsend. cbn. rewrite Hclosed, He0. cbn. reflexivity.
    + cbn. by rewrite list_lookup_insert_eq.
Qed.
Lemma sum_list_with_two {A} (f : A → nat) (l : list A) (i k : nat) (x y : A) :
  i ≠ k → l !! i = Some x → l !! k = Some y →
  (f x + f y ≤ sum_list_with f l)%nat.
Proof.
  revert i k. induction l as [|a l IH]; intros [|i] [|k] Hne Hi Hk;
    simplify_eq/=.
  - pose proof (sum_list_with_lookup f l k y Hk). lia.
  - pose proof (sum_list_with_lookup f l i x Hi). lia.
  - assert (i ≠ k) by congruence. specialize (IH i k H Hi Hk). lia.
Qed.

(** X7. No job is ever in two hands: two different workers never hold jobs
    answering on the same result channel, and a job a worker holds is not
    also waiting in the intake buffer. *)
Theorem job_held_by_one_worker q s i k w1 w2 (c : rchan)
    (Hreach : reachable q s)
    (H1 : sys_workers s !! i = Some w1) (H2 : sys_workers s !! k = Some w2)
    (Hh1 : worker_holds c w1 = 1%nat) (Hh2 : worker_holds c w2 = 1%nat) :
  i = k ∧ sum_list_with (job_on c) (queue (sys_state s)) = 0%nat.
Proof.
  destruct (reachable_single_use q s Hreach c) as [Hle _].
  unfold claims in Hle.
  pose proof (sum_list_with_lookup (worker_holds c) _ i w1 H1) as Hs.
  split; [|lia].
  destruct (decide (i = k)) as [|Hne]; [done|].
  pose proof (sum_list_with_two (worker_holds c) _ i k w1 w2 Hne H1 H2). lia.
Qed.

Lemma idle_queue q s (Hw : workers q = 0) (Hcap : queue_cap q = 0%nat) :
  reachable q s →
  sys_workers s = [] ∧ queue (sys_state s) = [] ∧
  (∀ c buf, results (sys_state s) !! c = Some buf → buf = []) ∧
  (∀ i p, sys_procs s !! i = Some p →
     match p with
     | PWait _ _ | PReturn _ None => False
     | PReturn (Some _) _ => False
     | _ => True
     end) ∧
  (∀ k, sys_run s = Some (RSpawn k) → 0 ≤ k).
Proof.
  revert s. apply (reachable_ind q (λ s,
    sys_workers s = [] ∧ queue (sys_state s) = [] ∧
    (∀ c buf, results (sys_state s) !! c = Some buf → buf = []) ∧
    (∀ i p, sys_procs s !! i = Some p →
       match p with
       | PWait _ _ | PReturn _ None => False
       | PReturn (Some _) _ => False
       | _ => True
       end) ∧
    (∀ k, sys_run s = Some (RSpawn k) → 0 ≤ k))).
  { cbn. repeat split; done. }
  intros a s s' (Hws & Hq & Hres & Hps & Hk) Hstep.
  apply sys_step_cases in Hstep
    as [(-> & Er & ->) | [(pc & pc' & st & started & -> & Er & Hrun & ->)
       | [(i & w & st & w' & Ew & Hin & ->) | [(i & p & st & p' & Ep & Hin & ->)
       | [(callerCtx & d & ->) | (c & e & Ec & ->)]]]]]; cbn.
  - repeat split; try done. intros k [= <-]. done.
  - apply run_step_cases in Hrun
      as [(k & -> & Hlt & -> & -> & ->) | [(k & -> & Hge & -> & -> & ->)
         | [(-> & Hs & -> & -> & ->) | [(-> & Hc & -> & -> & ->)
         | (-> & Hc & -> & -> & ->)]]]]; cbn;
      try (specialize (Hk k Er); lia);
      rewrite ?app_nil_r; repeat split; done.
  - by rewrite Hws in Ew.
  - pose proof (Hps i p Ep) as Hp. unfold process_step in Hin.
    assert (Hupd : ∀ p0 : process_pc Data Result,
              match p0 with
              | PWait _ _ | PReturn _ None => False
              | PReturn (Some _) _ => False
              | _ => True
              end →
              ∀ k p1, <[i := p0]> (sys_procs s) !! k = Some p1 →
                match p1 with
                | PWait _ _ | PReturn _ None => False
                | PReturn (Some _) _ => False
                | _ => True
                end).
    { intros p0 Hp0 k p1 Hl. destruct (decide (i = k)) as [->|Hne].
      - rewrite list_lookup_insert_eq in Hl by (by eapply lookup_lt_Some).
        by simplify_eq.
      - rewrite list_lookup_insert_ne in Hl by done. exact (Hps _ _ Hl). }
    destruct p as [callerCtx data|j|callerCtx resultChan|res err|];
      try done.
    + destruct (ctxErr (sys_state s) !! ctx q);
        apply in_singleton_pair in Hin as [-> ->]; cbn.
      * repeat split; try done. by apply Hupd.
      * repeat split; try done; [|by apply Hupd].
        intros c buf Hl.
        destruct (decide (fresh (dom (results (sys_state s))) = c))
          as [<-|Hne].
        -- rewrite lookup_insert_eq in Hl. by simplify_eq.
        -- rewrite lookup_insert_ne in Hl by done. eauto.
    + repeat apply elem_of_app in Hin as [Hin|Hin].
      * destruct (closed (sys_state s)).
        -- apply in_singleton_pair in Hin as [-> ->].
           repeat split; try done. by apply Hupd.
        -- rewrite Hq, Hcap in Hin. cbn in Hin.
           by apply elem_of_nil in Hin.
      * destruct (ctxErr (sys_state s) !! ctx q);
          [|by apply elem_of_nil in Hin].
        apply in_singleton_pair in Hin as [-> ->].
        repeat split; try done. by apply Hupd.
      * destruct (ctxErr (sys_state s) !! job_context j);
          [|by apply elem_of_nil in Hin].
        apply in_singleton_pair in Hin as [-> ->].
        repeat split; try done. by apply Hupd.
    + by apply elem_of_nil in Hin.
    + by apply elem_of_nil in Hin.
  - repeat split; try done. intros k p Hl.
    apply lookup_app_Some in Hl as [Hl|[_ Hl]]; [exact (Hps _ _ Hl)|].
    by apply list_lookup_singleton_Some in Hl as [_ <-].
  - repeat split; done.
Qed.

(** X8. A queue built with zero workers has an unbuffered intake channel
    and nobody to receive from it: no job is ever enqueued or handled, and
    every call that returns, returns an error and no result. *)
Theorem no_workers_no_answers q s i res (err : option error)
    (Hw : workers q = 0) (Hcap : queue_cap q = 0%nat)
    (Hreach : reachable q s)
    (Hret : sys_procs s !! i = Some (PReturn res err)) :
  sys_workers s = [] ∧ queue (sys_state s) = [] ∧ res = None ∧ is_Some err.
Proof.
  destruct (idle_queue q s Hw Hcap Hreach) as (Hws & Hq & _ & Hps & _).
  specialize (Hps i _ Hret). cbn in Hps.
  destruct res, err; done.
Qed.

End More.
Import QueueScenarios.

Lemma New_capacity_witness :
  New 0%nat 3 echo = Some (mkQueue 3 12 echo 0%nat) ∧
  New 0%nat (-1) echo = None ∧
  New 0%nat (2 ^ 41) echo = None.
Proof.
  assert (H3 : New 0%nat 3 echo = Some (mkQueue 3 12 echo 0%nat))
    by reflexivity.
  destruct (New_capacity 0%nat 3 echo) as (_ & _ & Hsome); [lia|].
  destruct (Hsome _ H3) as [_ Hq].
  destruct (New_capacity 0%nat (-1) echo) as (Hneg & _); [lia|].
  destruct (New_capacity 0%nat (2 ^ 41) echo) as (_ & Hbig & _); [lia|].
  split; [exact H3|]. split; [apply Hneg; lia|].
  apply Hbig. vm_compute. reflexivity.
Defined.
Lemma Run_starts_all_workers_witness :
  ∃ s, sys_exec q1 (take 6 exit_run) init = Some s ∧
       sys_run s = Some RWait ∧ length (sys_workers s) = 1%nat.
Proof.
  eexists. split; [vm_compute; reflexivity|].
  match goal with
  | |- sys_run ?s = _ ∧ _ => set (st := s)
  end.
  assert (Hr : reachable q1 st).
  { exists (take 6 exit_run). vm_compute. reflexivity. }
  assert (Hint : workers q1 < 2 ^ 63) by (vm_compute; reflexivity).
  assert (Hw : sys_run st = Some RWait) by reflexivity.
  split; [exact Hw|].
  exact (proj2 (proj2 (Run_starts_all_workers q1 st Hint Hr))
               (or_introl Hw)).
Defined.

Lemma closed_only_after_shutdown_witness :
  ∃ s, sys_exec q1 close_run init = Some s ∧
       closed (sys_state s) = true ∧
       sys_run s = Some RDone ∧
       is_Some (ctxErr (sys_state s) !! ctx q1).
Proof.
  eexists. split; [vm_compute; reflexivity|].
  match goal with
  | |- closed (sys_state ?s) = _ ∧ _ => set (st := s)
  end.
  assert (Hr : reachable q1 st).
  { exists close_run. vm_compute. reflexivity. }
  assert (Hc : closed (sys_state st) = true) by reflexivity.
  split; [exact Hc|].
  exact (proj1 (closed_only_after_shutdown q1 st Hr) Hc).
Defined.
Lemma Process_error_has_nil_result_witness :
  ∃ s res, sys_exec q2 round_trip_run init = Some s ∧
           sys_workers s !! 0%nat
           = Some (mkWorker WSelect true [(1%nat, 7%nat)]) ∧
           sys_procs s !! 0%nat
           = Some (PReturn res (Some (Errorf "boom"))) ∧
           res = None.
Proof.
  eexists _, _. split; [vm_compute; reflexivity|].
  match goal with
  | |- sys_workers ?s !! _ = _ ∧ _ => set (st := s)
  end.
  assert (Hr : reachable q2 st).
  { exists round_trip_run. vm_compute. reflexivity. }
  assert (Hp : sys_procs st !! 0%nat
               = Some (PReturn None (Some (Errorf "boom")))).
  { vm_compute. reflexivity. }
  split; [vm_compute; reflexivity|]. split; [exact Hp|].
  exact (Process_error_has_nil_result q2 st 0%nat None (Errorf "boom")
           Hr Hp).
Defined.

Lemma closed_intake_takes_no_job_witness :
  ∃ s, sys_exec q1 race_run init = Some s ∧
       sys_procs s !! 0%nat = Some (PSend (mkJob 7%nat 0%nat 1%nat)) ∧
       closed (sys_state s) = true ∧
       ∃ n s' e, sys_step q1 (ActProcess 0 n) s = Some s' ∧
                 sys_procs s' !! 0%nat = Some (PReturn None (Some e)).
Proof.
  eexists. split; [vm_compute; reflexivity|].
  match goal with
  | |- sys_procs ?s !! _ = _ ∧ _ => set (st := s)
  end.
  assert (Hr : reachable q1 st).
  { exists race_run. vm_compute. reflexivity. }
  assert (Hp : sys_procs st !! 0%nat
               = Some (PSend (mkJob 7%nat 0%nat 1%nat))).
  { vm_compute. reflexivity. }
  assert (Hc : closed (sys_state st) = true) by reflexivity.
  split; [exact Hp|]. split; [exact Hc|].
  exact (proj2 (closed_intake_takes_no_job q1 st 0%nat
                  (mkJob 7%nat 0%nat 1%nat) Hr Hp Hc)).
Defined.

Lemma job_held_by_one_worker_witness :
  ∃ s w, sys_exec q1 (take 8 abandon_run) init = Some s ∧
         sys_workers s !! 0%nat = Some w ∧
         w_pc w = WGot (mkJob 7%nat 0%nat 1%nat) ∧
         sum_list_with (job_on 0%nat) (queue (sys_state s)) = 0%nat.
Proof.
  eexists _, _. split; [vm_compute; reflexivity|].
  match goal with
  | |- sys_workers ?s !! _ = _ ∧ _ => set (st := s)
  end.
  assert (Hr : reachable q1 st).
  { exists (take 8 abandon_run). vm_compute. reflexivity. }
  split; [reflexivity|]. split; [reflexivity|].
  match goal with
  | |- sum_list_with _ _ = _ =>
      exact (proj2 (job_held_by_one_worker q1 st 0%nat 0%nat _ _ 0%nat
                      Hr eq_refl eq_refl eq_refl eq_refl))
  end.
Defined.

Lemma no_workers_no_answers_witness :
  ∃ s res err, New 0%nat 0 echo = Some q0 ∧
               sys_exec q0 idle_run init = Some s ∧
               sys_procs s = [PReturn res err] ∧
               err = Some (ErrContext Canceled) ∧
               sys_workers s = [].
Proof.
  eexists _, _, _. split; [reflexivity|].
  split; [vm_compute; reflexivity|].
  match goal with
  | |- sys_procs ?s = _ ∧ _ => set (st := s)
  end.
  assert (Hr : reachable q0 st).
  { exists idle_run. vm_compute. reflexivity. }
  split; [reflexivity|]. split; [reflexivity|].
  exact (proj1 (no_workers_no_answers q0 st 0%nat _ _ eq_refl eq_refl
                  Hr eq_refl)).
Defined.

End QueueMoreFacts.

(* ===================================================================== *)
(** * More on the handler's runs *)
(* ===================================================================== *)

Module ImageApiMoreFacts.
Import Fmt Go ImageApi ImageApiMore FmtFacts ImageApiFacts CoalesceFacts.

(** X9. A request whose signature cannot be checked, is invalid, or whose
    parameters do not parse is answered before the handler touches the
    cache, the in-flight map or the image processor: its run has no
    operation at all.  A verifier error takes precedence over everything,
    an invalid signature over a parameter error. *)
Theorem rejected_touches_nothing
    (w : ResponseWriter) (r : Request) (tr : list event) (fin : prog result)
    (Hrej : rejected r)
    (Hrun : after_trace (imageHandler w r) tr = Some fin) :
  tr = [] ∧ fin = Ret (w, Some (rejection r)).
Proof.
  unfold imageHandler, rejection in *.
  destruct Hrej as [Hv | [message Hp]].
  - destruct (ValidateHMAC r) as [[|] [e|]]; try done;
      by apply inv_Ret in Hrun.
  - destruct (ValidateHMAC r) as [[|] [e|]]; rewrite ?Hp in *;
      by apply inv_Ret in Hrun.
Qed.

Lemma rejected_touches_nothing_witness :
  rejected r_unsigned ∧
  ([] : list event) = [] ∧
  imageHandler w0 r_unsigned
  = Ret (w0, Some (BadRequest "Invalid parameters")).
Proof.
  assert (Hrej : rejected r_unsigned) by (left; discriminate).
  split; [exact Hrej|].
  exact (rejected_touches_nothing w0 r_unsigned [] _ Hrej eq_refl).
Defined.

(** Split a finished run of an accepted request into the listed runs. *)
Ltac listed_runs Hrun Hfin :=
  let a := fresh "a" in
  let Ha := fresh "Ha" in
  destruct (imageHandler_runs _ _ _ _ Hrun Hfin)
    as [(? & -> & ? & ->) | (?p & a & ?Ev & ?Ep & Ha)];
  [| destruct a as [[?c|] ?d ?x [|] [|] [?rc|] [?img' [?e'|]|]];
     unfold handler_trace, produce_trace, cleanup_trace in Ha; cbn in Ha;
     try match type of Ha with
         | context [errors_Is_QueueFull ?e] =>
             destruct (errors_Is_QueueFull e) eqn:?Eq; cbn in Ha
         end;
     injection Ha as -> -> ].

(** X10. A request answered from the result cache does nothing else: it
    counts one cache hit and sends the cached bytes, without touching the
    in-flight map or calling the image processor. *)
Theorem cache_hit_skips_processor
    (w : ResponseWriter) (r : Request) (tr : list event) (fin : prog result)
    (key : string) (img : bytes)
    (Hrun : after_trace (imageHandler w r) tr = Some fin)
    (Hfin : finished fin = true)
    (Hhit : tr !! 0%nat = Some (EvCacheGet key (Some img))) :
  ∃ p, GetParams r = inl p ∧ key = buildCacheKey (Vars_id r) p ∧
       tr = [EvCacheGet key (Some img); EvCounterAdd cacheHits] ∧
       fin = Ret (sendImage w (Vars_id r) p img).
Proof.
  listed_runs Hrun Hfin; simplify_eq/=; eauto.
Qed.

Lemma cache_hit_skips_processor_witness :
  ∃ p, GetParams r0 = inl p ∧ key0 = buildCacheKey (Vars_id r0) p ∧
       [EvCacheGet key0 (Some []); EvCounterAdd cacheHits]
       = [EvCacheGet key0 (Some []); EvCounterAdd cacheHits] ∧
       Ret (sendImage w0 "123" p0 []) = Ret (sendImage w0 (Vars_id r0) p []).
Proof.
  exact (cache_hit_skips_processor w0 r0
           [EvCacheGet key0 (Some []); EvCounterAdd cacheHits]
           (Ret (sendImage w0 "123" p0 [])) key0 []
           eq_refl eq_refl eq_refl).
Defined.

(** X11. The counters of one request agree with what it did: every
    accepted request counts exactly one of cache hit and cache miss; the
    image processor is called at most once, exactly as often as
    [requestsProcessed] is counted and never after a cache hit; a waiter is
    counted as coalesced exactly when it reaches the [select]; and a
    queue-full error is counted at most once, only after a processor
    call. *)
Theorem counters_agree_with_run
    (w : ResponseWriter) (r : Request) (tr : list event) (fin : prog result)
    (Hrun : after_trace (imageHandler w r) tr = Some fin)
    (Hfin : finished fin = true) :
  (count is_ProcessImage tr ≤ 1)%nat ∧
  count (is_counter requestsProcessed) tr = count is_ProcessImage tr ∧
  (tr ≠ [] → (count (is_counter cacheHits) tr
              + count (is_counter cacheMisses) tr = 1)%nat) ∧
  (count (is_counter cacheHits) tr = 1%nat → count is_ProcessImage tr = 0%nat) ∧
  count (is_counter requestsCoalesced) tr = count is_Select tr ∧
  (count (is_counter queueFullErrors) tr ≤ count is_ProcessImage tr)%nat.
Proof.
  listed_runs Hrun Hfin; cbn; repeat split; intros;
    first [done | lia | congruence].
Qed.

Lemma counters_agree_with_run_witness :
  after_trace (imageHandler w0 r0) queue_full_trace
  = Some (Ret (w0, Some ServiceUnavailable)) ∧
  count is_ProcessImage queue_full_trace = 1%nat ∧
  count (is_counter requestsProcessed) queue_full_trace = 1%nat ∧
  count (is_counter cacheMisses) queue_full_trace = 1%nat ∧
  count (is_counter queueFullErrors) queue_full_trace = 1%nat.
Proof.
  split; [reflexivity|].
  destruct (counters_agree_with_run w0 r0 queue_full_trace
              (Ret (w0, Some ServiceUnavailable)) eq_refl eq_refl)
    as (_ & Hp & _ & _ & _ & _).
  split; [reflexivity|]. split; [exact Hp|]. split; reflexivity.
Defined.

(** X12. Only a successful result is cached: a cache insertion stores the
    bytes the image processor returned without error, under the request's
    fingerprint, after that call, and the same bytes are sent; a run whose
    processor call failed or panicked inserts nothing. *)
Theorem only_success_is_cached
    (w : ResponseWriter) (r : Request) (tr : list event) (fin : prog result)
    (Hrun : after_trace (imageHandler w r) tr = Some fin)
    (Hfin : finished fin = true) :
  (∀ i key img, tr !! i = Some (EvCacheAdd key img) →
     ∃ p k, GetParams r = inl p ∧ key = buildCacheKey (Vars_id r) p ∧
            (k < i)%nat ∧
            tr !! k = Some (EvProcessImage (buildTask (Vars_id r) p)
                                           (ProcReturned img None)) ∧
            fin = Ret (sendImage w (Vars_id r) p img)) ∧
  (∀ k t a, tr !! k = Some (EvProcessImage t a) →
            (∀ img, a ≠ ProcReturned img None) →
            count is_CacheAdd tr = 0%nat).
Proof.
  split.
  - intros i key img Hi.
    listed_runs Hrun Hfin; clear Hrun;
      do 13 (try (destruct i as [|i]; simplify_eq/=));
      first
        [ eexists _, 5%nat; repeat split; first [done | lia | reflexivity]
        | eexists _, 8%nat; repeat split; first [done | lia | reflexivity] ].
  - intros k t a Hk Hne.
    listed_runs Hrun Hfin; clear Hrun;
      do 13 (try (destruct k as [|k]; simplify_eq/=)); try done;
      by destruct (Hne _ eq_refl).
Qed.

Lemma only_success_is_cached_witness :
  success_trace !! 8%nat = Some (EvCacheAdd key0 []) ∧
  ∃ p k, GetParams r0 = inl p ∧ key0 = buildCacheKey (Vars_id r0) p ∧
         (k < 8)%nat ∧
         success_trace !! k
         = Some (EvProcessImage (buildTask (Vars_id r0) p)
                                (ProcReturned [] None)) ∧
         Ret (sendImage w0 "123" p0 []) = Ret (sendImage w0 (Vars_id r0) p []).
Proof.
  split; [reflexivity|].
  destruct (only_success_is_cached w0 r0 success_trace
              (Ret (sendImage w0 "123" p0 [])) eq_refl eq_refl)
    as [Hadd _].
  exact (Hadd 8%nat key0 [] eq_refl).
Defined.

(** X13. A waiter whose own context is cancelled before the signal fires
    answers with an internal server error and stops there: it calls no
    image processor, inserts nothing in the cache, and leaves the in-flight
    entry and the signal to the producer. *)
Theorem cancelled_waiter_leaves_entry
    (w : ResponseWriter) (r : Request) (tr : list event) (fin : prog result)
    (i : nat) (ch : chan)
    (Hrun : after_trace (imageHandler w r) tr = Some fin)
    (Hfin : finished fin = true)
    (Hcancel : tr !! i = Some (EvSelect ch Cancelled)) :
  fin = Ret (w, Some InternalServerError) ∧
  S i = length tr ∧
  count is_ProcessImage tr = 0%nat ∧ count is_CacheAdd tr = 0%nat ∧
  count is_Delete tr = 0%nat ∧ count is_Close tr = 0%nat.
Proof.
  listed_runs Hrun Hfin; clear Hrun;
    do 13 (try (destruct i as [|i]; simplify_eq/=)); done.
Qed.

Lemma cancelled_waiter_leaves_entry_witness :
  after_trace (imageHandler w0 r0) cancelled_trace
  = Some (Ret (w0, Some InternalServerError)) ∧
  Ret (w0, Some InternalServerError)
  = (Ret (w0, Some InternalServerError) : prog result) ∧
  6%nat = length cancelled_trace ∧
  count is_ProcessImage cancelled_trace = 0%nat ∧
  count is_CacheAdd cancelled_trace = 0%nat ∧
  count is_Delete cancelled_trace = 0%nat ∧
  count is_Close cancelled_trace = 0%nat.
Proof.
  split; [reflexivity|].
  exact (cancelled_waiter_leaves_entry w0 r0 cancelled_trace
           (Ret (w0, Some InternalServerError)) 5%nat 0%nat
           eq_refl eq_refl eq_refl).
Defined.

(** X14. When the image processor returns an error the handler answers
    503 if the error is, or wraps, the queue-full sentinel and 500
    otherwise; it counts [queueFullErrors] exactly in the first case, and
    its last operation is the error log carrying that error. *)
Theorem processor_error_answer
    (w : ResponseWriter) (r : Request) (tr : list event) (fin : prog result)
    (i : nat) (t : Task) (img : bytes) (e : error)
    (Hrun : after_trace (imageHandler w r) tr = Some fin)
    (Hfin : finished fin = true)
    (Herr : tr !! i = Some (EvProcessImage t (ProcReturned img (Some e)))) :
  fin = Ret (w, Some (error_answer e)) ∧
  count (is_counter queueFullErrors) tr
  = (if errors_Is_QueueFull e then 1 else 0)%nat ∧
  last tr = Some (EvLogError (error_message e) e) ∧
  count is_CacheAdd tr = 0%nat.
Proof.
  unfold error_answer, error_message.
  listed_runs Hrun Hfin; clear Hrun;
    do 13 (try (destruct i as [|i]; simplify_eq/=));
    match goal with H : errors_Is_QueueFull _ = _ |- _ => rewrite H end;
    done.
Qed.

Lemma processor_error_answer_witness :
  after_trace (imageHandler w0 r0) queue_full_trace
  = Some (Ret (w0, Some ServiceUnavailable)) ∧
  error_answer ErrQueueFull = ServiceUnavailable ∧
  count (is_counter queueFullErrors) queue_full_trace = 1%nat ∧
  last queue_full_trace
  = Some (EvLogError "error processing image: queue is full" ErrQueueFull).
Proof.
  split; [reflexivity|]. split; [reflexivity|].
  destruct (processor_error_answer w0 r0 queue_full_trace
              (Ret (w0, Some ServiceUnavailable)) 5%nat
              (buildTask "123" p0) [] ErrQueueFull
              eq_refl eq_refl eq_refl)
    as (_ & Hc & Hl & _).
  split; [exact Hc|exact Hl].
Defined.

Lemma content_type_of_format (extension : string) :
  getContentType extension
  = format_content_type (getOutputFormat extension).
Proof.
  unfold getContentType, getOutputFormat, format_content_type.
  by destruct (decide (extension = ".webp")).
Qed.

Lemma sendImage_content_type (w : ResponseWriter) (imageID : string)
    (p : Params) (img : bytes) :
  Header (sendImage w imageID p img).1 !! "Content-Type"
  = Some (getContentType (Extension p)).
Proof.
  rewrite sendImage_stored. unfold Writer_Write, WriteHeader. cbn.
  destruct (Status w); cbn;
    rewrite !lookup_insert_ne by done; by rewrite lookup_insert_eq.
Qed.

Lemma buildTask_format (imageID : string) (p : Params) :
  task_format (buildTask imageID p) = getOutputFormat (Extension p).
Proof. unfold buildTask. by destruct (Blur p), (Grayscale p). Qed.

(** X15. The declared content type is the format the image processor was
    asked for: whenever a request that called the processor is answered
    with an image, its [Content-Type] header names the output format of the
    task it submitted; an extension other than [.webp] means JPEG in both
    places. *)
Theorem content_type_matches_task
    (w w' : ResponseWriter) (r : Request) (tr : list event)
    (i : nat) (t : Task) (a : proc_answer)
    (Hrun : after_trace (imageHandler w r) tr = Some (Ret (w', None)))
    (Hproc : tr !! i = Some (EvProcessImage t a)) :
  Header w' !! "Content-Type" = Some (format_content_type (task_format t)).
Proof.
  destruct (imageHandler_runs w r tr _ Hrun eq_refl)
    as [(_ & _ & e & [=]) | (p & ans & Ev & Ep & Ha)].
  assert (∃ img, w' = (sendImage w (Vars_id r) p img).1 ∧
                 t = buildTask (Vars_id r) p) as (img & -> & ->).
  { destruct ans as [[c|] d x [|] [|] [rc|] [img' [e'|]|]];
      unfold handler_trace, produce_trace, cleanup_trace in Ha;
      cbn -[sendImage] in Ha;
      try (destruct (errors_Is_QueueFull e'); cbn -[sendImage] in Ha);
      pose proof (f_equal fst Ha) as Etr;
      apply (f_equal snd) in Ha; cbn [fst snd] in Etr, Ha; subst tr;
      try discriminate Ha;
      apply (f_equal (λ c, match c with Ret x => x.1 | _ => w' end)) in Ha;
      cbn [fst] in Ha;
      do 13 (try (destruct i as [|i]; [try discriminate Hproc|]));
      try discriminate Hproc;
      injection Hproc as <- _; eexists; (split; [exact Ha|done]). }
  by rewrite sendImage_content_type, buildTask_format,
       content_type_of_format.
Qed.

Lemma content_type_matches_task_witness :
  after_trace (imageHandler w0 r0) success_trace
  = Some (Ret ((sendImage w0 "123" p0 []).1, None)) ∧
  task_format (buildTask "123" p0) = JPEG ∧
  Header (sendImage w0 "123" p0 []).1 !! "Content-Type" = Some "image/jpeg".
Proof.
  split; [reflexivity|]. split; [reflexivity|].
  exact (content_type_matches_task w0 (sendImage w0 "123" p0 []).1 r0
           success_trace 5%nat (buildTask "123" p0) (ProcReturned [] None)
           eq_refl eq_refl).
Defined.




(** ** The file name determines the request *)

Lemma name_chars (imageID : string) (p : Params) :
  chars (buildFilename imageID p) = chars imageID ++ name_tail p.
Proof.
  rewrite buildFilename_spec.
  unfold spec_filename, name_tail, name_body, blur_part, gray_part.
  rewrite !chars_app.
  destruct (Blur p), (Grayscale p); rewrite ?chars_app; reflexivity.
Qed.

Lemma stops_gray_ext (p : Params) :
  Extension p = ".jpg" ∨ Extension p = ".webp" →
  stops (gray_part p ++ chars (Extension p)).
Proof.
  unfold gray_part. intros [-> | ->]; by destruct (Grayscale p).
Qed.

Lemma stops_blur_gray_ext (p : Params) :
  Extension p = ".jpg" ∨ Extension p = ".webp" →
  stops (blur_part p ++ gray_part p ++ chars (Extension p)).
Proof.
  intros He. unfold blur_part. destruct (Blur p); [done|].
  by apply stops_gray_ext.
Qed.

Lemma gray_ext_inj (p1 p2 : Params) :
  Extension p1 = ".jpg" ∨ Extension p1 = ".webp" →
  Extension p2 = ".jpg" ∨ Extension p2 = ".webp" →
  gray_part p1 ++ chars (Extension p1) = gray_part p2 ++ chars (Extension p2) →
  Grayscale p1 = Grayscale p2 ∧ Extension p1 = Extension p2.
Proof.
  unfold gray_part. intros [e1 | e1] [e2 | e2] E; rewrite e1, e2 in E |- *;
    destruct (Grayscale p1), (Grayscale p2); cbn in E;
    first [discriminate E | done].
Qed.

Lemma name_tail_inj (id1 id2 : string) (p1 p2 : Params) :
  in_space id1 p1 → in_space id2 p2 → name_tail p1 = name_tail p2 →
  Width p1 = Width p2 ∧ Height p1 = Height p2 ∧
  Extension p1 = Extension p2 ∧ Blur p1 = Blur p2 ∧
  (Blur p1 = true → BlurAmount p1 = BlurAmount p2) ∧
  Grayscale p1 = Grayscale p2.
Proof.
  intros (_ & Hw1 & Hh1 & He1 & Hb1) (_ & Hw2 & Hh2 & He2 & Hb2) E.
  unfold name_tail, name_body in E. injection E as E.
  pose proof (digits_of_pos _ (proj1 Hw1)) as Dw1.
  pose proof (digits_of_pos _ (proj1 Hw2)) as Dw2.
  pose proof (digits_of_pos _ (proj1 Hh1)) as Dh1.
  pose proof (digits_of_pos _ (proj1 Hh2)) as Dh2.
  destruct (digit_span _ _ _ _ Dw1 Dw2 (stops_cons "x" _ eq_refl)
              (stops_cons "x" _ eq_refl) E) as [EW E1].
  injection E1 as E1.
  destruct (digit_span _ _ _ _ Dh1 Dh2 (stops_blur_gray_ext p1 He1)
              (stops_blur_gray_ext p2 He2) E1) as [EH E2].
  clear E E1.
  apply chars_inj, sprintf_d_inj in EW. apply chars_inj, sprintf_d_inj in EH.
  split; [done|]. split; [done|].
  unfold blur_part in E2.
  destruct (Blur p1) eqn:B1, (Blur p2) eqn:B2.
  - rewrite <- !app_assoc in E2. apply app_inv_head in E2.
    assert (Db1 : Forall (λ c, is_digit c = true)
                         (chars (sprintf_d (BlurAmount p1))))
      by (apply digits_of_pos; specialize (Hb1 eq_refl); lia).
    assert (Db2 : Forall (λ c, is_digit c = true)
                         (chars (sprintf_d (BlurAmount p2))))
      by (apply digits_of_pos; specialize (Hb2 eq_refl); lia).
    destruct (digit_span _ _ _ _ Db1 Db2 (stops_gray_ext p1 He1)
                (stops_gray_ext p2 He2) E2) as [EB EG].
    apply chars_inj, sprintf_d_inj in EB.
    destruct (gray_ext_inj p1 p2 He1 He2 EG). done.
  - exfalso. unfold gray_part in E2.
    destruct He2 as [e2 | e2]; rewrite e2 in E2;
      destruct (Grayscale p2); cbn in E2; discriminate E2.
  - exfalso. unfold gray_part in E2.
    destruct He1 as [e1 | e1]; rewrite e1 in E2;
      destruct (Grayscale p1); cbn in E2; discriminate E2.
  - cbn in E2. destruct (gray_ext_inj p1 p2 He1 He2 E2). done.
Qed.

Lemma name_tail_starts (imageID : string) (p : Params) :
  in_space imageID p →
  ∃ d r, name_tail p = "-"%char :: d :: r ∧ is_digit d = true.
Proof.
  intros (_ & Hw & _). unfold name_tail, name_body.
  destruct (sprintf_d_pos (Width p)) as (c & l & -> & Hc & _); [lia|].
  eauto.
Qed.

Lemma name_body_no_dash_digit (imageID : string) (p : Params) :
  in_space imageID p → has_dash_digit (name_body p) = false.
Proof.
  intros (_ & Hw & Hh & He & Hb). unfold name_body.
  pose proof (digits_of_pos _ (proj1 Hw)) as Dw.
  pose proof (digits_of_pos _ (proj1 Hh)) as Dh.
  assert (Hge : has_dash_digit (gray_part p ++ chars (Extension p)) = false).
  { unfold gray_part. destruct He as [-> | ->]; by destruct (Grayscale p). }
  walk_dash_digit.
  unfold blur_part. destruct (Blur p); [|done].
  assert (Db : Forall (λ c, is_digit c = true)
                      (chars (sprintf_d (BlurAmount p))))
    by (apply digits_of_pos; specialize (Hb eq_refl); lia).
  rewrite <- app_assoc.
  change (chars "-blur_" ++ ?r)
    with ("-"%char :: "b"%char :: "l"%char :: "u"%char :: "r"%char
                   :: "_"%char :: r).
  walk_dash_digit. done.
Qed.

(** X17. The file name in [Content-Disposition] identifies the rendition:
    over the parameter space two requests get the same file name exactly
    when they carry the same parameter vector. *)
Theorem filename_injective
    (id1 id2 : string) (p1 p2 : Params)
    (H1 : in_space id1 p1) (H2 : in_space id2 p2) :
  buildFilename id1 p1 = buildFilename id2 p2 ↔ same_vector id1 p1 id2 p2.
Proof.
  split.
  - intros E. apply (f_equal chars) in E. rewrite !name_chars in E.
    assert (Hshift : ∀ ida pa idb pb (l : list ascii),
              in_space ida pa → in_space idb pb →
              name_tail pa = l ++ name_tail pb → l = []).
    { intros ida pa idb pb l Ha Hb El. destruct l as [|c l]; [done|exfalso].
      destruct (name_tail_starts _ _ Hb) as (d & r & Et & Hd).
      rewrite Et in El. unfold name_tail in El. injection El as _ El.
      pose proof (name_body_no_dash_digit _ _ Ha) as Hno.
      rewrite El, has_dash_digit_found in Hno by done. done. }
    assert (id1 = id2 ∧ name_tail p1 = name_tail p2) as [Eid Et].
    { apply app_eq_app in E as [l [[E1 E2] | [E1 E2]]].
      - pose proof (Hshift _ _ _ _ _ H2 H1 E2) as ->.
        rewrite app_nil_r in E1. cbn in E2.
        split; [by apply chars_inj|done].
      - pose proof (Hshift _ _ _ _ _ H1 H2 E2) as ->.
        rewrite app_nil_r in E1. cbn in E2.
        split; [by apply chars_inj|done]. }
    split; [done|]. by apply (name_tail_inj id1 id2).
  - intros (-> & EW & EH & EE & EB & EA & EG).
    unfold buildFilename. rewrite EW, EH, EE, <- EB, EG.
    destruct (Blur p1); [|done]. by rewrite EA.
Qed.

Lemma filename_injective_witness :
  let p1 := mkParams 200 200 ".webp" true 3 false in
  let p2 := mkParams 200 200 ".webp" false 0 true in
  in_space "7" p1 ∧ in_space "7" p2 ∧
  buildFilename "7" p1 = "7-200x200-blur_3.webp" ∧
  ¬ same_vector "7" p1 "7" p2 ∧
  buildFilename "7" p1 ≠ buildFilename "7" p2.
Proof.
  assert (S1 : in_space "7" (mkParams 200 200 ".webp" true 3 false)).
  { unfold in_space; cbn; repeat split; try lia; auto; done. }
  assert (S2 : in_space "7" (mkParams 200 200 ".webp" false 0 true)).
  { unfold in_space; cbn; repeat split; try lia; auto; done. }
  pose proof (filename_injective _ _ _ _ S1 S2) as [Hi _].
  assert (Hn : ¬ same_vector "7" (mkParams 200 200 ".webp" true 3 false)
                             "7" (mkParams 200 200 ".webp" false 0 true)).
  { intros (_ & _ & _ & _ & Hb & _). cbn in Hb. discriminate. }
  split; [exact S1|]. split; [exact S2|]. split; [reflexivity|].
  split; [exact Hn|]. intros E. apply Hn, Hi, E.
Defined.

End ImageApiMoreFacts.

(* ===================================================================== *)
(** * The in-flight map and the goroutines *)
(* ===================================================================== *)

Module RegistryFacts.
Import Go ImageApi Registry CoalesceFacts.

Lemma after_trace_app {R} (p : prog R) (tr1 tr2 : list event) :
  after_trace p (tr1 ++ tr2)
  = after_trace p tr1 ≫= λ p', after_trace p' tr2.
Proof.
  revert p. induction tr1 as [|e tr1 IH]; intros p; cbn; [done|].
  destruct (after p e); [apply IH|done].
Qed.

(** Whatever is left of a goroutine can run to its end. *)
Lemma can_finish {R} (p : prog R) :
  ∃ tr fin, after_trace p tr = Some fin ∧ finished fin = true.
Proof.
  induction p as [r| |key k IH|key img k IH|c k IH|k IH|key ch k IH
                  |key k IH|ch k IH|ch k IH|t k IH|message err k IH].
  - by exists [], (Ret r).
  - by exists [], Panic.
  - destruct (IH None) as (tr & fin & Hr & Hf).
    exists (EvCacheGet key None :: tr), fin. cbn.
    by rewrite decide_True.
  - destruct IH as (tr & fin & Hr & Hf).
    exists (EvCacheAdd key img :: tr), fin. cbn. by rewrite decide_True.
  - destruct IH as (tr & fin & Hr & Hf).
    exists (EvCounterAdd c :: tr), fin. cbn. by rewrite decide_True.
  - destruct (IH 0%nat) as (tr & fin & Hr & Hf).
    by exists (EvMakeChan 0%nat :: tr), fin.
  - destruct (IH ch true) as (tr & fin & Hr & Hf).
    exists (EvLoadOrStore key ch ch true :: tr), fin. cbn.
    by rewrite decide_True.
  - destruct IH as (tr & fin & Hr & Hf).
    exists (EvDelete key :: tr), fin. cbn. by rewrite decide_True.
  - destruct IH as (tr & fin & Hr & Hf).
    exists (EvClose ch :: tr), fin. cbn. by rewrite decide_True.
  - destruct (IH Cancelled) as (tr & fin & Hr & Hf).
    exists (EvSelect ch Cancelled :: tr), fin. cbn. by rewrite decide_True.
  - exists [EvProcessImage t ProcPanicked], Panic. cbn.
    by rewrite decide_True.
  - destruct IH as (tr & fin & Hr & Hf).
    exists (EvLogError message err :: tr), fin. cbn. by rewrite decide_True.
Qed.

(** Every run of the handler, finished or not, starts one of the listed
    runs. *)
Lemma partial_run (w : ResponseWriter) (r : Request) (h : list event)
    (code : prog result) :
  after_trace (imageHandler w r) h = Some code →
  h = [] ∨
  ∃ p a ext, GetParams r = inl p ∧
             h ++ ext = (handler_trace w (Vars_id r) p a).1.
Proof.
  intros Hrun. destruct (can_finish code) as (ext & fin & Hext & Hfin).
  assert (Hfull : after_trace (imageHandler w r) (h ++ ext) = Some fin).
  { rewrite after_trace_app, Hrun. exact Hext. }
  destruct (imageHandler_runs w r _ fin Hfull Hfin)
    as [(_ & E & _) | (p & a & Ev & Ep & Ha)].
  - left. by apply app_eq_nil in E as [-> _].
  - right. exists p, a, ext. split; [done|]. by rewrite <- Ha.
Qed.

(** Membership in a list that is written out. *)
Ltac list_mem :=
  by repeat first [apply list_elem_of_here | apply list_elem_of_further].
Ltac list_not_mem :=
  unfold not; intros;
  solve [ repeat match goal with
                 | H : _ ∈ _ :: _ |- _ =>
                     apply elem_of_cons in H as [H|H]; [discriminate H|]
                 | H : _ ∈ [] |- _ => by apply elem_of_nil in H
                 end ].
Ltac shape_goal :=
  first [ list_mem | list_not_mem
        | eexists _, _; list_mem
        | eexists _, _; (split; list_mem) ].

(** What a goroutine has done before each operation on the in-flight map
    and on a signal: it makes one channel, stores at most once and only the
    channel it made, deletes only the entry it stored, and closes only the
    channel it stored, after deleting the entry. *)
Lemma run_shape (w : ResponseWriter) (r : Request) (pre post : list event)
    (ev : event) (code : prog result) :
  after_trace (imageHandler w r) (pre ++ ev :: post) = Some code →
  match ev with
  | EvMakeChan c => ∀ c', EvMakeChan c' ∉ pre
  | EvLoadOrStore k c a l =>
      EvMakeChan c ∈ pre ∧
      (∀ k' c' a' l', EvLoadOrStore k' c' a' l' ∉ pre) ∧
      (∀ k', EvDelete k' ∉ pre)
  | EvDelete k =>
      (∃ c a, EvLoadOrStore k c a false ∈ pre) ∧
      (∀ k', EvDelete k' ∉ pre)
  | EvClose c =>
      EvMakeChan c ∈ pre ∧
      (∃ k a, EvLoadOrStore k c a false ∈ pre ∧ EvDelete k ∈ pre) ∧
      (∀ c', EvClose c' ∉ pre)
  | _ => True
  end.
Proof.
  intros Hrun.
  destruct (partial_run _ _ _ _ Hrun) as [E | (p & a & ext & _ & E)].
  { by destruct pre. }
  clear Hrun. rewrite <- app_assoc in E. cbn in E.
  destruct a as [[c|] d x [|] [|] [rc|] [img [e|]|]];
    unfold handler_trace, produce_trace, cleanup_trace in E; cbn in E;
    try (destruct (errors_Is_QueueFull e); cbn in E);
    do 13 (try (destruct pre as [|? pre]; simplify_eq/=));
    try done;
    try (by destruct pre);
    repeat split; shape_goal.
Qed.

(** A goroutine performs [LoadOrStore] at most once. *)
Lemma one_LoadOrStore (w : ResponseWriter) (r : Request) (h : list event)
    (code : prog result) (k1 k2 : string) (c1 c2 a1 a2 : chan)
    (l1 l2 : bool) :
  after_trace (imageHandler w r) h = Some code →
  EvLoadOrStore k1 c1 a1 l1 ∈ h → EvLoadOrStore k2 c2 a2 l2 ∈ h →
  k1 = k2 ∧ c1 = c2.
Proof.
  intros Hrun H1 H2.
  apply list_elem_of_split in H1 as (pre & post & ->).
  apply elem_of_app in H2 as [H2|H2].
  { pose proof (run_shape _ _ _ _ _ _ Hrun) as (_ & Hno & _).
    by destruct (Hno _ _ _ _ H2). }
  apply elem_of_cons in H2 as [H2|H2]; [by simplify_eq|].
  apply list_elem_of_split in H2 as (p1 & p2 & ->).
  replace (pre ++ EvLoadOrStore k1 c1 a1 l1
               :: p1 ++ EvLoadOrStore k2 c2 a2 l2 :: p2)
    with ((pre ++ EvLoadOrStore k1 c1 a1 l1 :: p1)
            ++ EvLoadOrStore k2 c2 a2 l2 :: p2) in Hrun
    by (by rewrite <- app_assoc).
  pose proof (run_shape _ _ _ _ _ _ Hrun) as (_ & Hno & _).
  destruct (Hno k1 c1 a1 l1). apply elem_of_app. right. list_mem.
Qed.

(** The channel a goroutine stores is one it made. *)
Lemma stored_is_made (w : ResponseWriter) (r : Request) (h : list event)
    (code : prog result) (key : string) (c a : chan) (l : bool) :
  after_trace (imageHandler w r) h = Some code →
  EvLoadOrStore key c a l ∈ h → EvMakeChan c ∈ h.
Proof.
  intros Hrun H1. apply list_elem_of_split in H1 as (pre & post & ->).
  pose proof (run_shape _ _ _ _ _ _ Hrun) as (Hm & _).
  apply elem_of_app. by left.
Qed.

(** A goroutine that closed a channel made it, stored it and deleted the
    entry it stored it under. *)
Lemma closed_was_deleted (w : ResponseWriter) (r : Request) (h : list event)
    (code : prog result) (c : chan) :
  after_trace (imageHandler w r) h = Some code →
  EvClose c ∈ h →
  EvMakeChan c ∈ h ∧
  ∃ key a, EvLoadOrStore key c a false ∈ h ∧ EvDelete key ∈ h.
Proof.
  intros Hrun H1. apply list_elem_of_split in H1 as (pre & post & ->).
  pose proof (run_shape _ _ _ _ _ _ Hrun) as (Hm & (k & a & Hs & Hd) & _).
  split; [apply elem_of_app; by left|].
  exists k, a. split; apply elem_of_app; by left.
Qed.

(** ** What one operation does to the shared objects *)

Ltac effect_goal :=
  repeat split; intros; simplify_eq/=;
  first [done | lia | by left | by right].

Lemma apply_event_effect (ctxErr : option ctx_error) (sh sh' : shared)
    (ev : event) :
  apply_event ctxErr sh ev = Some sh' →
  (∀ key ch, inflight sh' !! key = Some ch →
     (inflight sh !! key = Some ch ∧ ev ≠ EvDelete key) ∨
     ev = EvLoadOrStore key ch ch false) ∧
  (∀ key ch, inflight sh !! key = Some ch →
     inflight sh' !! key = Some ch ∨ ev = EvDelete key) ∧
  (∀ key ch a, ev = EvLoadOrStore key ch a false →
     inflight sh' !! key = Some ch) ∧
  (∀ ch, ch ∈ closed sh' → ch ∈ closed sh ∨ ev = EvClose ch) ∧
  (next_chan sh ≤ next_chan sh')%nat ∧
  (∀ ch, ev = EvMakeChan ch →
     ch = next_chan sh ∧ next_chan sh' = S ch).
Proof.
  intros H.
  destruct ev as [key cached|key img|c|ch|key ch actual loaded|key|ch
                  |ch arm|t a|message err]; cbn in H.
  - destruct (decide (imageCache sh !! key = cached)); simplify_eq.
    effect_goal.
  - simplify_eq. cbn. effect_goal.
  - simplify_eq. effect_goal.
  - destruct (decide (ch = next_chan sh)); simplify_eq. cbn. effect_goal.
  - destruct (inflight sh !! key) as [c0|] eqn:E0.
    + destruct (decide (actual = c0 ∧ loaded = true)) as [[-> ->]|];
        simplify_eq.
      effect_goal.
    + destruct (decide (actual = ch ∧ loaded = false)) as [[-> ->]|];
        simplify_eq. cbn.
      split; [|split; [|split]]; [| | |effect_goal].
      * intros key' ch' Hl. destruct (decide (key = key')) as [<-|Hne].
        -- rewrite lookup_insert_eq in Hl. simplify_eq. by right.
        -- rewrite lookup_insert_ne in Hl by done. left. done.
      * intros key' ch' Hl. left.
        rewrite lookup_insert_ne; [done|]. intros <-. congruence.
      * intros key' ch' a [= <- <-]. by rewrite lookup_insert_eq.
  - simplify_eq. cbn.
    split; [|split]; [| |effect_goal].
    + intros key' ch' Hl. left.
      apply lookup_delete_Some in Hl as [Hne Hl]. split; [done|congruence].
    + intros key' ch' Hl. destruct (decide (key = key')) as [<-|Hne].
      * by right.
      * left. by rewrite lookup_delete_ne.
  - simplify_eq. cbn.
    split; [|split; [|split; [|split]]]; [effect_goal..| |effect_goal].
    intros c Hc. apply elem_of_union in Hc as [Hc|Hc]; [|by left].
    apply elem_of_singleton in Hc as ->. by right.
  - destruct arm.
    + destruct (decide (ch ∈ closed sh)); simplify_eq. effect_goal.
    + destruct ctxErr; simplify_eq. effect_goal.
  - simplify_eq. effect_goal.
  - simplify_eq. effect_goal.
Qed.

(** ** Induction over the executions *)

Lemma sys_run_snoc (acts : list action) (a : action) (s : system) :
  sys_run (acts ++ [a]) s = sys_run acts s ≫= sys_step a.
Proof.
  revert s. induction acts as [|b acts IH]; intros s; cbn.
  - by destruct (sys_step a s).
  - destruct (sys_step b s); [apply IH|done].
Qed.

Lemma reachable_step (a : action) (s s' : system) :
  reachable s → sys_step a s = Some s' → reachable s'.
Proof.
  intros [acts Hrun] Hs. exists (acts ++ [a]).
  by rewrite sys_run_snoc, Hrun.
Qed.

Lemma reachable_invariant (P : system → Prop) :
  P empty_system →
  (∀ a s s', reachable s → reachable s' → P s →
             sys_step a s = Some s' → P s') →
  ∀ s, reachable s → P s.
Proof.
  intros H0 Hstep s [acts Hrun]. revert s Hrun.
  induction acts as [|a acts IH] using rev_ind; intros s Hrun.
  - cbn in Hrun. by simplify_eq.
  - rewrite sys_run_snoc in Hrun.
    destruct (sys_run acts empty_system) as [s1|] eqn:E1; [|done].
    cbn in Hrun. assert (reachable s1) by by exists acts.
    eapply Hstep; [done| |by apply IH|done]. by eapply reachable_step.
Qed.

(** ** The histories account for the in-flight map *)

Lemma accounted_empty : accounted empty_system.
Proof. split; cbn; intros; simplify_eq; set_solver. Qed.

Lemma registered_snoc (key : string) (ch : chan) (h : list event)
    (ev : event) :
  registered key ch h → ev ≠ EvDelete key → registered key ch (h ++ [ev]).
Proof.
  intros [[a Hs] Hd] Hne. split.
  - exists a. apply elem_of_app. by left.
  - intros Hin. apply elem_of_app in Hin as [Hin|Hin]; [done|].
    apply list_elem_of_singleton in Hin. by subst.
Qed.

Lemma pool_update_back (pool : list goroutine) (k i : nat)
    (g1 g' : goroutine) :
  <[k := g1]> pool !! i = Some g' →
  (i ≠ k ∧ pool !! i = Some g') ∨ (i = k ∧ g' = g1).
Proof.
  intros H. apply list_lookup_insert_Some in H as [(-> & -> & _)|[Hne H]].
  - by right.
  - left. split; [congruence|done].
Qed.

Lemma accounted_sched (s s' : system) (k : nat) (ev : event) :
  reachable s → reachable s' → accounted s →
  sys_step (Sched k ev) s = Some s' → accounted s'.
Proof.
  intros Hreach Hreach' [He Ho Hc Hm Hmk] Hstep. cbn in Hstep.
  destruct (sys_pool s !! k) as [g0|] eqn:Ek; [|done]. cbn in Hstep.
  destruct (after (g_code g0) ev) as [code|] eqn:Ea; [|done]. cbn in Hstep.
  destruct (apply_event (g_ctx g0) (sys_shared s) ev) as [sh'|] eqn:Eap;
    [|done].
  cbn in Hstep. injection Hstep as <-.
  set (g1 := mkGoroutine (g_ctx g0) code (g_hist g0 ++ [ev])) in *.
  assert (Hlt : (k < length (sys_pool s))%nat) by by eapply lookup_lt_Some.
  assert (Hk1 : <[k := g1]> (sys_pool s) !! k = Some g1)
    by by apply list_lookup_insert_eq.
  destruct (history_is_run _ k g1 Hreach' Hk1) as (w & r & Hrun1).
  cbn in Hrun1.
  pose proof (run_shape w r (g_hist g0) [] ev code Hrun1) as Hshape.
  destruct (history_is_run _ k g0 Hreach Ek) as (w0' & r0' & Hrun0).
  destruct (apply_event_effect _ _ _ _ Eap)
    as (E1 & E2 & E3 & E4 & E5 & E6).
  split; cbn.
  - intros key ch Hl. destruct (E1 key ch Hl) as [[Hold Hnd] | ->].
    + destruct (He key ch Hold) as (i & g & Hg & Hr).
      destruct (decide (i = k)) as [->|Hne].
      * exists k, g1. split; [done|]. simplify_eq.
        by apply registered_snoc.
      * exists i, g. split; [|done]. by rewrite list_lookup_insert_ne.
    + exists k, g1. split; [done|]. destruct Hshape as (_ & _ & Hnd).
      split.
      * exists ch. apply elem_of_app. right. list_mem.
      * intros Hin. apply elem_of_app in Hin as [Hin|Hin];
          [by destruct (Hnd key)|].
        by apply list_elem_of_singleton in Hin.
  - intros i g' key ch Hg' Hr.
    apply pool_update_back in Hg' as [[Hne Hg']|[-> ->]].
    + pose proof (Ho i g' key ch Hg' Hr) as Hold.
      destruct (E2 key ch Hold) as [Hnew | ->]; [done|exfalso].
      destruct Hshape as ((c & a & Hs0) & Hnd0).
      assert (Hr0 : registered key c (g_hist g0)).
      { split; [by exists a|apply Hnd0]. }
      pose proof (Ho k g0 key c Ek Hr0) as Hc0.
      assert (c = ch) as -> by congruence.
      destruct (history_is_run _ i g' Hreach Hg') as (w' & r' & Hrun').
      destruct Hr as [[a' Hs'] _].
      apply Hne, (Hmk i k g' g0 ch Hg' Ek).
      * by eapply stored_is_made.
      * by eapply stored_is_made.
    + destruct Hr as [[a Hs] Hd]. cbn in Hs, Hd.
      apply elem_of_app in Hs as [Hs|Hs].
      * assert (Hr0 : registered key ch (g_hist g0)).
        { split; [by exists a|]. intros Hin. apply Hd, elem_of_app.
          by left. }
        pose proof (Ho k g0 key ch Ek Hr0) as Hold.
        destruct (E2 key ch Hold) as [Hnew | ->]; [done|exfalso].
        apply Hd, elem_of_app. right. list_mem.
      * apply list_elem_of_singleton in Hs as <-. by eapply E3.
  - intros ch Hin. destruct (E4 ch Hin) as [Hold | ->].
    + destruct (Hc ch Hold) as (i & g & Hg & Hcl).
      destruct (decide (i = k)) as [->|Hne].
      * exists k, g1. split; [done|]. simplify_eq. cbn.
        apply elem_of_app. by left.
      * exists i, g. split; [|done]. by rewrite list_lookup_insert_ne.
    + exists k, g1. split; [done|]. cbn. apply elem_of_app. right.
      list_mem.
  - intros i g' ch Hg' Hin.
    apply pool_update_back in Hg' as [[Hne Hg']|[-> ->]].
    + pose proof (Hm i g' ch Hg' Hin). lia.
    + cbn in Hin. apply elem_of_app in Hin as [Hin|Hin].
      * pose proof (Hm k g0 ch Ek Hin). lia.
      * apply list_elem_of_singleton in Hin as <-.
        destruct (E6 ch eq_refl) as [-> ->]. lia.
  - intros i j g g' ch Hg Hg' Hin Hin'.
    apply pool_update_back in Hg as [[Hne Hg]|[-> ->]];
      apply pool_update_back in Hg' as [[Hne' Hg']|[-> ->]];
      [by eapply Hmk| | |done].
    + cbn in Hin'. apply elem_of_app in Hin' as [Hin'|Hin'].
      * by eapply Hmk.
      * apply list_elem_of_singleton in Hin' as <-.
        destruct (E6 ch eq_refl) as [-> _].
        pose proof (Hm i g _ Hg Hin). lia.
    + cbn in Hin. apply elem_of_app in Hin as [Hin|Hin].
      * by eapply Hmk.
      * apply list_elem_of_singleton in Hin as <-.
        destruct (E6 ch eq_refl) as [-> _].
        pose proof (Hm j g' _ Hg' Hin'). lia.
Qed.

(** Steps that add nothing to any history and leave the in-flight map and
    the signals alone. *)
Lemma accounted_same_histories (s s' : system) :
  inflight (sys_shared s') = inflight (sys_shared s) →
  closed (sys_shared s') = closed (sys_shared s) →
  next_chan (sys_shared s') = next_chan (sys_shared s) →
  (∀ i g, sys_pool s !! i = Some g →
          ∃ g', sys_pool s' !! i = Some g' ∧ g_hist g' = g_hist g) →
  (∀ i g', sys_pool s' !! i = Some g' →
           g_hist g' = [] ∨
           ∃ g, sys_pool s !! i = Some g ∧ g_hist g' = g_hist g) →
  accounted s → accounted s'.
Proof.
  intros Ei Ec En Hforth Hback [He Ho Hc Hm Hmk].
  split; rewrite ?Ei, ?Ec, ?En.
  - intros key ch Hl. destruct (He key ch Hl) as (i & g & Hg & Hr).
    destruct (Hforth i g Hg) as (g' & Hg' & Eh).
    exists i, g'. split; [done|]. by rewrite Eh.
  - intros i g' key ch Hg' Hr.
    destruct (Hback i g' Hg') as [E | (g & Hg & Eh)].
    + rewrite E in Hr. destruct Hr as [[a Hs] _].
      by apply elem_of_nil in Hs.
    + rewrite Eh in Hr. by eapply Ho.
  - intros ch Hin. destruct (Hc ch Hin) as (i & g & Hg & Hcl).
    destruct (Hforth i g Hg) as (g' & Hg' & Eh).
    exists i, g'. split; [done|]. by rewrite Eh.
  - intros i g' ch Hg' Hin.
    destruct (Hback i g' Hg') as [E | (g & Hg & Eh)].
    + rewrite E in Hin. by apply elem_of_nil in Hin.
    + rewrite Eh in Hin. by eapply Hm.
  - intros i j g1 g2 ch Hg1 Hg2 Hin1 Hin2.
    destruct (Hback i g1 Hg1) as [E | (g1' & Hg1' & Eh1)].
    { rewrite E in Hin1. by apply elem_of_nil in Hin1. }
    destruct (Hback j g2 Hg2) as [E | (g2' & Hg2' & Eh2)].
    { rewrite E in Hin2. by apply elem_of_nil in Hin2. }
    rewrite Eh1 in Hin1. rewrite Eh2 in Hin2. by eapply Hmk.
Qed.

Lemma accounted_step (a : action) (s s' : system) :
  reachable s → reachable s' → accounted s →
  sys_step a s = Some s' → accounted s'.
Proof.
  intros Hreach Hreach' Hacc Hstep.
  destruct a as [w r|k ev|k e|key].
  - cbn in Hstep. injection Hstep as <-.
    apply (accounted_same_histories s); cbn; try done.
    + intros i g Hg. exists g. split; [|done].
      by apply lookup_app_l_Some.
    + intros i g' Hg'.
      apply lookup_app_Some in Hg' as [Hg'|[_ Hg']]; [right; eauto|].
      apply list_lookup_singleton_Some in Hg' as [_ <-]. by left.
  - exact (accounted_sched s s' k ev Hreach Hreach' Hacc Hstep).
  - cbn in Hstep.
    destruct (sys_pool s !! k) as [g0|] eqn:Ek; [|done]. cbn in Hstep.
    destruct (g_ctx g0); [done|]. injection Hstep as <-.
    assert (Hlt : (k < length (sys_pool s))%nat)
      by by eapply lookup_lt_Some.
    apply (accounted_same_histories s); cbn; try done.
    + intros i g Hg. destruct (decide (i = k)) as [->|Hne].
      * eexists. rewrite list_lookup_insert_eq by done.
        split; [done|]. by simplify_eq.
      * exists g. by rewrite list_lookup_insert_ne.
    + intros i g' Hg'. right.
      apply pool_update_back in Hg' as [[Hne Hg']|[-> ->]]; eauto.
  - cbn in Hstep. injection Hstep as <-.
    apply (accounted_same_histories s); cbn; eauto.
Qed.

Lemma reachable_accounted (s : system) : reachable s → accounted s.
Proof.
  apply reachable_invariant; [apply accounted_empty|].
  intros a s0 s1 H0 H1 Hacc Hstep.
  exact (accounted_step a s0 s1 H0 H1 Hacc Hstep).
Qed.

(** X18. The in-flight map and the goroutines agree.  A fingerprint has an
    entry exactly when some goroutine is its registered producer with the
    entry's channel (it stored that channel, which it made itself, and has
    not deleted the entry yet), and no fingerprint ever has two registered
    producers: concurrent requests for one fingerprint are led by one
    goroutine. *)
Theorem inflight_entry_has_one_producer (s : system) (key : string)
    (Hreach : reachable s) :
  (∀ ch, inflight (sys_shared s) !! key = Some ch ↔
         ∃ i g, sys_pool s !! i = Some g ∧ registered key ch (g_hist g)) ∧
  (∀ i j g g' ch ch',
     sys_pool s !! i = Some g → sys_pool s !! j = Some g' →
     registered key ch (g_hist g) → registered key ch' (g_hist g') →
     i = j).
Proof.
  destruct (reachable_accounted s Hreach) as [He Ho Hc Hm Hmk].
  split.
  - intros ch. split; [apply He|]. intros (i & g & Hg & Hr). by eapply Ho.
  - intros i j g g' ch ch' Hg Hg' Hr Hr'.
    pose proof (Ho _ _ _ _ Hg Hr) as E1.
    pose proof (Ho _ _ _ _ Hg' Hr') as E2.
    assert (ch' = ch) as -> by congruence.
    destruct (history_is_run _ _ _ Hreach Hg) as (w & r & Hrun).
    destruct (history_is_run _ _ _ Hreach Hg') as (w' & r' & Hrun').
    destruct Hr as [[a Hs] _]. destruct Hr' as [[a' Hs'] _].
    apply (Hmk i j g g' ch Hg Hg'); by eapply stored_is_made.
Qed.

(** X19. The signal of an in-flight entry is open: while a fingerprint has
    an entry, the entry's channel has been made and has not been closed.
    So a request that loads an existing entry always gets a channel it can
    wait on; it is never woken by a close that happened before it
    looked. *)
Theorem registered_signal_is_open (s : system) (key : string) (ch : chan)
    (Hreach : reachable s)
    (Hentry : inflight (sys_shared s) !! key = Some ch) :
  (ch ∉ closed (sys_shared s)) ∧ (ch < next_chan (sys_shared s))%nat ∧
  ∀ i c s', sys_step (Sched i (EvLoadOrStore key c ch true)) s = Some s' →
            ch ∉ closed (sys_shared s').
Proof.
  destruct (reachable_accounted s Hreach) as [He Ho Hc Hm Hmk].
  destruct (He key ch Hentry) as (i & g & Hg & [[a Hs] Hd]).
  destruct (history_is_run _ _ _ Hreach Hg) as (w & r & Hrun).
  pose proof (stored_is_made _ _ _ _ _ _ _ _ Hrun Hs) as Hmade.
  assert (Hopen : ch ∉ closed (sys_shared s)).
  { intros Hin. destruct (Hc ch Hin) as (j & g' & Hg' & Hcl).
    destruct (history_is_run _ _ _ Hreach Hg') as (w' & r' & Hrun').
    destruct (closed_was_deleted _ _ _ _ _ Hrun' Hcl)
      as (Hmade' & key' & a' & Hs' & Hd').
    assert (i = j) as -> by by eapply Hmk.
    simplify_eq.
    destruct (one_LoadOrStore _ _ _ _ _ _ _ _ _ _ _ _ Hrun Hs Hs')
      as [-> _].
    done. }
  split; [done|]. split; [by eapply Hm|].
  intros k c s' Hstep. cbn in Hstep.
  destruct (sys_pool s !! k) as [g0|]; [|done]. cbn in Hstep.
  destruct (after (g_code g0) _); [|done]. cbn in Hstep.
  rewrite Hentry in Hstep. rewrite decide_True in Hstep by done.
  cbn in Hstep. by injection Hstep as <-.
Qed.

Lemma inflight_entry_has_one_producer_witness :
  ∃ s, sys_run overlap_run empty_system = Some s ∧
       inflight (sys_shared s) !! key0 = Some 0%nat ∧
       ∃ i g, sys_pool s !! i = Some g ∧ registered key0 0%nat (g_hist g).
Proof.
  eexists. split; [vm_compute; reflexivity|].
  match goal with
  | |- inflight (sys_shared ?s) !! _ = _ ∧ _ => set (st := s)
  end.
  assert (Hr : reachable st).
  { exists overlap_run. vm_compute. reflexivity. }
  assert (He : inflight (sys_shared st) !! key0 = Some 0%nat).
  { vm_compute. reflexivity. }
  destruct (inflight_entry_has_one_producer st key0 Hr) as [Hiff _].
  exact (conj He (proj1 (Hiff 0%nat) He)).
Defined.

Lemma registered_signal_is_open_witness :
  ∃ s, sys_run overlap_run empty_system = Some s ∧
       inflight (sys_shared s) !! key0 = Some 0%nat ∧
       (0%nat ∉ closed (sys_shared s)) ∧
       (0 < next_chan (sys_shared s))%nat.
Proof.
  eexists. split; [vm_compute; reflexivity|].
  match goal with
  | |- inflight (sys_shared ?s) !! _ = _ ∧ _ => set (st := s)
  end.
  assert (Hr : reachable st).
  { exists overlap_run. vm_compute. reflexivity. }
  assert (He : inflight (sys_shared st) !! key0 = Some 0%nat).
  { vm_compute. reflexivity. }
  destruct (registered_signal_is_open st key0 0%nat Hr He)
    as (Hopen & Hlt & _).
  exact (conj He (conj Hopen Hlt)).
Defined.

End RegistryFacts.
